(** * Host emulation of the Tock userspace/kernel boundary

    A shallow embedding of the host-testing crate
    ([src/host-testing/src]) and of the wire types of
    [src/libraries/host-emulation/src/common_types.rs]:

    - the wire frames and their byte-level decoding;
    - the syscall transport ([SyscallTransport]) over a pair of datagram
      sockets, with the app's datagrams as an input queue and every frame
      the kernel sends or receives recorded in a wire log;
    - the process object ([UnixProcess]): its allow map, [allow], the
      unyield protocol and [transfer_allow_region];
    - the boundary driver ([SysCall::switch_to_process]);
    - the emulated process adapter's task queue and work accounting;
    - the interrupt lower half ([LowerHalf]).

    Machine words are 64-bit: [usize] values are [Z] in [0, 2^64). *)

From Stdlib Require Import String.
From Stdlib Require Import ZArith List Bool Lia Permutation.
Import ListNotations.
Open Scope Z_scope.

(* ------------------------------------------------------------------ *)
(** ** Wire types ([common_types.rs]) *)

Definition usize_bytes : nat := 8.
Definition usize_modulus : Z := 2 ^ 64.

(** [Syscall]: [syscall_number: usize, args: [usize; 4]], packed. *)
Record Syscall_frame := mkSyscall_frame {
  syscall_number : Z;
  sc_args : list Z;
}.

(** [Callback]: [pc: usize, args: [usize; 4]], packed. *)
Record Callback := mkCallback {
  cb_pc : Z;
  cb_args : list Z;
}.

(** [KernelReturn]: [ret_val: isize, cb: Callback], packed. *)
Record KernelReturn := mkKernelReturn {
  ret_val : Z;
  kr_cb : Callback;
}.

(** [AllowedRegionPreamble]: [address: usize, length: usize], packed. *)
Record AllowedRegionPreamble := mkAllowedRegionPreamble {
  pre_address : Z;
  pre_length : Z;
}.

Definition Callback_new (pc a0 a1 a2 a3 : Z) : Callback :=
  mkCallback pc [a0; a1; a2; a3].

Definition Callback_new0 (pc : Z) : Callback := Callback_new pc 0 0 0 0.

Definition KernelReturn_new_ret (v : Z) : KernelReturn :=
  mkKernelReturn v (Callback_new0 0).

Definition KernelReturn_new_cb (cb : Callback) : KernelReturn :=
  mkKernelReturn 0 cb.

Definition AllowedRegionPreamble_new (address length : Z) : AllowedRegionPreamble :=
  mkAllowedRegionPreamble address length.

Definition AllowedRegionPreamble_new_null : AllowedRegionPreamble :=
  AllowedRegionPreamble_new 0 0.

Definition KernelReturn_default : KernelReturn :=
  mkKernelReturn 0 (mkCallback 0 [0; 0; 0; 0]).

(** [size_of::<Syscall>()]: five packed words. *)
Definition size_of_Syscall : nat := 5 * usize_bytes.

(** Little-endian decoding of a machine word from its bytes. *)
Fixpoint le_word (bs : list Z) : Z :=
  match bs with
  | [] => 0
  | b :: rest => b + 256 * le_word rest
  end.

Definition word_at (bs : list Z) (i : nat) : Z :=
  le_word (firstn usize_bytes (skipn (i * usize_bytes) bs)).

(** The typed view [LayoutVerified::<_, Syscall>::new_unaligned(buf)]
    yields: [Some] exactly when [buf] is [size_of::<Syscall>()] long. *)
Definition layout_verified_syscall (buf : list Z) : option Syscall_frame :=
  if Nat.eqb (length buf) size_of_Syscall then
    Some (mkSyscall_frame (word_at buf 0)
            [word_at buf 1; word_at buf 2; word_at buf 3; word_at buf 4])
  else None.

(* ------------------------------------------------------------------ *)
(** ** Errors and the kernel-side state *)

(** [EmulationError] ([main.rs]). *)
Inductive EmulationError :=
| IoError
| ChannelError
| PartialMessage (expected actual : nat)
| Custom (msg : String.string).

(** What crosses the two sockets, in the order it crosses them.
    [Tx*] are datagrams the kernel sends on [tx]; [Rx*] the datagrams it
    reads from [rx] (as they arrived, before any truncation). *)
Inductive wire_event :=
| TxKernelReturn (k : KernelReturn)
| TxPreamble (p : AllowedRegionPreamble)
| TxBytes (bs : list Z)
| RxDatagram (bs : list Z)
| SpawnChild (id : nat).

(** [AllowSlice]: the shadow buffer ([Vec<u8>], with the address of its
    heap storage) and the [valid] flag. *)
Record AllowSlice := mkAllowSlice {
  slice_ptr : Z;
  slice : list Z;
  valid : bool;
}.

Definition AllowSlice_new (ptr : Z) (data : list Z) : AllowSlice :=
  mkAllowSlice ptr data false.

Definition AllowSlice_validate (s : AllowSlice) : AllowSlice :=
  mkAllowSlice (slice_ptr s) (slice s) true.

Definition AllowSlice_len (s : AllowSlice) : Z := Z.of_nat (length (slice s)).

(** [HashMap<*const u8, AllowSlice>]: the map's hasher (fixed by its
    [RandomState] when the map is created) and its entries in the order the
    map's iterator yields them, which is bucket order, i.e. by hash. *)
Record HashMap := mkHashMap {
  hm_hash : Z -> Z;
  hm_entries : list (Z * AllowSlice);
}.

Definition HashMap_new (hasher : Z -> Z) : HashMap := mkHashMap hasher [].

Fixpoint entries_get (k : Z) (es : list (Z * AllowSlice)) : option AllowSlice :=
  match es with
  | [] => None
  | (k', v) :: rest => if Z.eqb k' k then Some v else entries_get k rest
  end.

Definition HashMap_get (k : Z) (m : HashMap) : option AllowSlice :=
  entries_get k (hm_entries m).

(** [HashMap::insert]: an existing key keeps its bucket and gets the new
    value; a new key goes to the bucket its hash selects. *)
Fixpoint entries_insert (h : Z -> Z) (k : Z) (v : AllowSlice)
    (es : list (Z * AllowSlice)) : list (Z * AllowSlice) :=
  match es with
  | [] => [(k, v)]
  | (k', v') :: rest =>
      if Z.eqb k' k then (k, v) :: rest
      else if Z.ltb (h k) (h k') then (k, v) :: es
      else (k', v') :: entries_insert h k v rest
  end.

Definition HashMap_insert (k : Z) (v : AllowSlice) (m : HashMap) : HashMap :=
  mkHashMap (hm_hash m) (entries_insert (hm_hash m) k v (hm_entries m)).

(** Writing through the [&mut AllowSlice] that [iter_mut] hands out. *)
Fixpoint entries_update (k : Z) (f : AllowSlice -> AllowSlice)
    (es : list (Z * AllowSlice)) : list (Z * AllowSlice) :=
  match es with
  | [] => []
  | (k', v) :: rest =>
      if Z.eqb k' k then (k', f v) :: rest else (k', v) :: entries_update k f rest
  end.

Definition HashMap_update (k : Z) (f : AllowSlice -> AllowSlice) (m : HashMap) : HashMap :=
  mkHashMap (hm_hash m) (entries_update k f (hm_entries m)).

Definition HashMap_keys (m : HashMap) : list Z := map fst (hm_entries m).

(** The world the boundary driver runs in.  The [UnixProcess] object is
    shared ([&'static UnixProcess] in every stored state, [RefCell] allow
    map): its fields live here, once.
    - [inbox]: datagrams the app has written to the kernel's [rx] socket;
    - [tx_connected]: whether [tx] has a peer;
    - [spawn_ok]: whether spawning the child binary succeeds;
    - [wire]: every frame sent or received so far, oldest first;
    - [proc_id], [proc_started] ([process: MapCell<Child>] is full),
      [allow_map] (in the map's iteration order);
    - [heap_next]: the next address the global allocator hands out. *)
Record World := mkWorld {
  inbox : list (list Z);
  tx_connected : bool;
  spawn_ok : bool;
  wire : list wire_event;
  proc_id : nat;
  proc_started : bool;
  allow_map : HashMap;
  heap_next : Z;
}.

(** Kernel code threads the world and may fail with an [EmulationError];
    what it did to the world before failing stays done.  [Panic] is a Rust
    panic: the thread unwinds, nothing after it runs. *)
Inductive result (A : Type) :=
| Ok (a : A)
| Err (e : EmulationError)
| Panic (msg : String.string).
Arguments Ok {A} a.
Arguments Err {A} e.
Arguments Panic {A} msg.

Definition M (A : Type) := World -> result A * World.

Definition ret {A} (a : A) : M A := fun w => (Ok a, w).
Definition fail {A} (e : EmulationError) : M A := fun w => (Err e, w).
Definition panic {A} (msg : String.string) : M A := fun w => (Panic msg, w).
Definition bind {A B} (m : M A) (k : A -> M B) : M B :=
  fun w => match m w with
           | (Ok a, w') => k a w'
           | (Err e, w') => (Err e, w')
           | (Panic m, w') => (Panic m, w')
           end.

Notation "x <- m ;; k" := (bind m (fun x => k))
  (at level 61, m at next level, right associativity).
Notation "m ;; k" := (bind m (fun _ => k))
  (at level 61, right associativity).

Definition get : M World := fun w => (Ok w, w).
Definition put (w : World) : M unit := fun _ => (Ok tt, w).
Definition modify (f : World -> World) : M unit := fun w => (Ok tt, f w).

Definition log (e : wire_event) (w : World) : World :=
  mkWorld (inbox w) (tx_connected w) (spawn_ok w) (wire w ++ [e])
    (proc_id w) (proc_started w) (allow_map w) (heap_next w).

Definition set_inbox (i : list (list Z)) (w : World) : World :=
  mkWorld i (tx_connected w) (spawn_ok w) (wire w)
    (proc_id w) (proc_started w) (allow_map w) (heap_next w).

Definition set_connected (w : World) : World :=
  mkWorld (inbox w) true (spawn_ok w) (wire w)
    (proc_id w) (proc_started w) (allow_map w) (heap_next w).

Definition set_started (w : World) : World :=
  mkWorld (inbox w) (tx_connected w) (spawn_ok w) (wire w)
    (proc_id w) true (allow_map w) (heap_next w).

Definition set_allow_map (m : HashMap) (w : World) : World :=
  mkWorld (inbox w) (tx_connected w) (spawn_ok w) (wire w)
    (proc_id w) (proc_started w) m (heap_next w).

Definition set_heap_next (h : Z) (w : World) : World :=
  mkWorld (inbox w) (tx_connected w) (spawn_ok w) (wire w)
    (proc_id w) (proc_started w) (allow_map w) h.

(* ------------------------------------------------------------------ *)
(** ** The syscall transport ([syscall_transport.rs]) *)

(** [tx_connect_if_needed]: connect [tx] to the app's socket when it has
    no peer yet (the app binds its socket before its first syscall).  The
    model's [connect] always succeeds. *)
Definition tx_connect_if_needed : M unit :=
  w <- get ;;
  if tx_connected w then ret tt else modify set_connected.

(** [UnixDatagram::send] on [tx]: fails when [tx] has no peer; a datagram
    socket sends the whole datagram or nothing, so [sent == bytes.len()].
    The real send can also fail on a connected socket (a datagram larger
    than the send buffer, the app's socket gone); the model does not
    represent those failures, each of which would stop the run at that
    send without sending anything. *)
Definition tx_send (e : wire_event) : M unit :=
  w <- get ;;
  if tx_connected w then modify (log e) else fail IoError.

(** [send::<KernelReturn>], [send::<AllowedRegionPreamble>] and
    [send_bytes]: one datagram each. *)
Definition send_kernel_return (_id : nat) (k : KernelReturn) : M unit :=
  tx_send (TxKernelReturn k).

Definition send_preamble (_id : nat) (p : AllowedRegionPreamble) : M unit :=
  tx_send (TxPreamble p).

Definition send_bytes (_id : nat) (bs : list Z) : M unit :=
  tx_send (TxBytes bs).

(** [self.rx.recv(buf)]: take the next datagram the app sent, copy as much
    of it as fits into [buf] (the rest of [buf] is left as it was) and
    return the new contents of [buf] with the number of bytes read.  The
    real call blocks while no datagram is queued; the model has no
    blocking, and ends a run that reaches an empty inbox with an I/O error,
    where the code would wait for ever. *)
Definition rx_recv (buf : list Z) : M (list Z * nat) :=
  w <- get ;;
  match inbox w with
  | [] => fail IoError
  | d :: rest =>
      let n := Nat.min (length d) (length buf) in
      put (log (RxDatagram d) (set_inbox rest w)) ;;
      ret (firstn n d ++ skipn n buf, n)
  end.

Definition deserialize_error_Syscall : String.string :=
  "Failed to deserialize host_emulation::common_types::Syscall."%string.

(** [recv::<Syscall>(buf)]: the count [rx.recv] returns is dropped; the
    typed view is checked against [buf]. *)
Definition recv_syscall (buf : list Z) : M Syscall_frame :=
  r <- rx_recv buf ;;
  let '(buf', _) := r in
  match layout_verified_syscall buf' with
  | Some msg => ret msg
  | None => fail (Custom deserialize_error_Syscall)
  end.

(** The check [recv_bytes] makes once [rx.recv(buf)] has read [received]
    bytes into a buffer of [buf_len] bytes. *)
Definition recv_bytes_check (buf_len received : nat) : M unit :=
  if Nat.eqb received buf_len then ret tt
  else fail (PartialMessage buf_len received).

(* ------------------------------------------------------------------ *)
(** ** The process object ([UnixProcess], [process.rs]) *)

(** [isize::MAX] on the 64-bit host. *)
Definition isize_max : Z := 2 ^ 63 - 1.

(** [vec![0 as u8; len]] followed by [as_mut_ptr()]: a fresh heap block,
    or the dangling (aligned, non-null) pointer for an empty vector.  A
    length over [isize::MAX] bytes is refused before allocating
    ([RawVec]'s capacity check panics with "capacity overflow").  The
    model's heap does not run out: an allocation failure of the real heap
    aborts the process ([handle_alloc_error]), so the model's [Ok] results
    are those of the runs in which the allocation succeeds. *)
Definition alloc_zeroed (len : Z) : M (Z * list Z) :=
  w <- get ;;
  if Z.ltb isize_max len then panic "capacity overflow"%string
  else if Z.eqb len 0 then ret (1, [])
  else
    let p := heap_next w in
    modify (set_heap_next (p + len)) ;;
    ret (p, repeat 0 (Z.to_nat len)).

(** [UnixProcess::allow]. *)
Definition allow (app_slice_addr : Z) (len : Z) : M Z :=
  if Z.eqb app_slice_addr 0 then ret app_slice_addr
  else
    a <- alloc_zeroed len ;;
    let '(ptr, data) := a in
    w <- get ;;
    put (set_allow_map (HashMap_insert app_slice_addr (AllowSlice_new ptr data)
                          (allow_map w)) w) ;;
    ret ptr.

(** One iteration of the loop of [transfer_allow_region], for the entry
    with key [addr]. *)
Definition transfer_one (id : nat) (send : bool) (addr : Z) : M unit :=
  w <- get ;;
  match HashMap_get addr (allow_map w) with
  | None => ret tt
  | Some s =>
      if send && negb (valid s) then ret tt
      else
        send_preamble id (AllowedRegionPreamble_new addr (AllowSlice_len s)) ;;
        if send then send_bytes id (slice s)
        else
          r <- rx_recv (slice s) ;;
          let '(buf', n) := r in
          w1 <- get ;;
          put (set_allow_map
                 (HashMap_update addr (fun v => mkAllowSlice (slice_ptr v) buf' (valid v))
                    (allow_map w1)) w1) ;;
          recv_bytes_check (length (slice s)) n ;;
          w2 <- get ;;
          put (set_allow_map (HashMap_update addr AllowSlice_validate (allow_map w2)) w2)
  end.

Fixpoint transfer_entries (id : nat) (send : bool) (keys : list Z) : M unit :=
  match keys with
  | [] => ret tt
  | k :: rest => transfer_one id send k ;; transfer_entries id send rest
  end.

(** [UnixProcess::transfer_allow_region]: every entry in the map's
    iteration order, then the null terminator. *)
Definition transfer_allow_region (send : bool) : M unit :=
  w <- get ;;
  transfer_entries (proc_id w) send (HashMap_keys (allow_map w)) ;;
  send_preamble (proc_id w) AllowedRegionPreamble_new_null.

(** [UnixProcess::unyield]. *)
Definition unyield (syscall_return : option KernelReturn) : M Syscall_frame :=
  (match syscall_return with
   | Some r =>
       tx_connect_if_needed ;;
       w <- get ;;
       send_kernel_return (proc_id w) r ;;
       transfer_allow_region false
   | None => ret tt
   end) ;;
  syscall <- recv_syscall (repeat 0 size_of_Syscall) ;;
  tx_connect_if_needed ;;
  transfer_allow_region true ;;
  ret syscall.

(** [UnixProcess::start]: spawn the app binary. *)
Definition start : M unit :=
  w <- get ;;
  if spawn_ok w then put (set_started (log (SpawnChild (proc_id w)) w))
  else fail IoError.

(* ------------------------------------------------------------------ *)
(** ** The boundary driver ([SysCall], [syscall.rs]) *)

(** [kernel::syscall::Syscall]. *)
Inductive Syscall :=
| YIELD
| SUBSCRIBE (driver_number subdriver_number callback_ptr appdata : Z)
| COMMAND (driver_number subdriver_number arg0 arg1 : Z)
| ALLOW (driver_number subdriver_number allow_address allow_size : Z)
| MEMOP (operand arg0 : Z).

(** Modelled from the spec: [kernel::syscall::arguments_to_syscall] of the
    kernel crate, which is not among the sources here.  The spec says the
    decoded frame may fail to decode (then [switch_to_process] faults), that
    the frame [{1, [0,0,0,0]}] is a syscall (S1) and that ALLOW carries the
    driver, subdriver, address and size; the numbering is the kernel's
    (0 yield, 1 subscribe, 2 command, 3 allow, 4 memop, anything else is
    not a syscall). *)
Definition arguments_to_syscall (syscall_number : Z) (r0 r1 r2 r3 : Z) : option Syscall :=
  match syscall_number with
  | 0 => Some YIELD
  | 1 => Some (SUBSCRIBE r0 r1 r2 r3)
  | 2 => Some (COMMAND r0 r1 r2 r3)
  | 3 => Some (ALLOW r0 r1 r2 r3)
  | 4 => Some (MEMOP r0 r1)
  | _ => None
  end.

(** [kernel::syscall::ContextSwitchReason]. *)
Inductive ContextSwitchReason :=
| SyscallFired (syscall : Syscall)
| Fault
| TimesliceExpired
| Interrupted.

(** The [&'static UnixProcess] a stored state points to: the process
    object itself is the one in the [World]. *)
Definition ProcessRef := unit.

(** [HostStoredState]. *)
Record HostStoredState := mkHostStoredState {
  process : option ProcessRef;
  syscall_ret : KernelReturn;
}.

Definition HostStoredState_new : HostStoredState :=
  mkHostStoredState (Some tt) KernelReturn_default.

(** [set_syscall_return_value]. *)
Definition set_syscall_return_value (state : HostStoredState) (return_value : Z)
    : HostStoredState :=
  mkHostStoredState (process state) (KernelReturn_new_ret return_value).

(** [set_process_function], with the [FunctionCall]'s pc and arguments. *)
Definition set_process_function (state : HostStoredState) (pc a0 a1 a2 a3 : Z)
    : HostStoredState :=
  mkHostStoredState (process state)
    (KernelReturn_new_cb (Callback_new pc a0 a1 a2 a3)).

Definition nth_arg (s : Syscall_frame) (i : nat) : Z := nth i (sc_args s) 0.

(** The part of [switch_to_process] after [unyield] returned: decode the
    frame ([syscall_number as u8]) and translate an ALLOW's address. *)
Definition decode_and_translate (syscall_args : Syscall_frame) : M ContextSwitchReason :=
  match arguments_to_syscall (syscall_number syscall_args mod 256)
          (nth_arg syscall_args 0) (nth_arg syscall_args 1)
          (nth_arg syscall_args 2) (nth_arg syscall_args 3) with
  | Some s =>
      match s with
      | ALLOW driver_number subdriver_number allow_address allow_size =>
          allow_address' <- allow allow_address allow_size ;;
          ret (SyscallFired (ALLOW driver_number subdriver_number allow_address' allow_size))
      | _ => ret (SyscallFired s)
      end
  | None => ret Fault
  end.

(** The first step of [switch_to_process]: start the app on the first
    switch (then there is nothing to return to it), otherwise hand it the
    stored [KernelReturn]. *)
Definition start_if_needed (state : HostStoredState) : M (option KernelReturn) :=
  w <- get ;;
  if proc_started w then ret (Some (syscall_ret state))
  else start ;; ret None.

(** [SysCall::switch_to_process].  Every error becomes [Fault]; the stored
    state is only read, and is returned as it was passed.  A panic (the
    [vec!] in [allow] with a length over [isize::MAX]) does not return: the
    kernel goes down with the world as it was at the panic.  The triple has
    no value for such a run; it carries [Fault] and that world. *)
Definition switch_to_process (state : HostStoredState) (w : World)
    : ContextSwitchReason * HostStoredState * World :=
  match process state with
  | None => (Fault, state, w)
  | Some _ =>
      match (return_value <- start_if_needed state ;;
             syscall_args <- unyield return_value ;;
             decode_and_translate syscall_args) w with
      | (Ok r, w') => (r, state, w')
      | (Err _, w') => (Fault, state, w')
      | (Panic _, w') => (Fault, state, w')
      end
  end.

(* ------------------------------------------------------------------ *)
(** ** The emulated process adapter ([EmulatedProcess], [process.rs]) *)

Module Adapter.

(** [kernel::procs::State]. *)
Inductive State :=
| Unstarted | Yielded | Running | StoppedYielded | StoppedRunning
| Fault | StoppedFaulted.

Definition State_eqb (a b : State) : bool :=
  match a, b with
  | Unstarted, Unstarted | Yielded, Yielded | Running, Running
  | StoppedYielded, StoppedYielded | StoppedRunning, StoppedRunning
  | Fault, Fault | StoppedFaulted, StoppedFaulted => true
  | _, _ => false
  end.

(** [FunctionCallSource] and [Task]. *)
Inductive FunctionCallSource :=
| Kernel
| Driver (callback_id : nat).

Record FunctionCall := mkFunctionCall {
  source : FunctionCallSource;
  pc : Z;
  argument0 : Z; argument1 : Z; argument2 : Z; argument3 : Z;
}.

Inductive Task :=
| TaskFunctionCall (call : FunctionCall)
| TaskIPC (app : nat).

(** The fields of [EmulatedProcess] the task queue touches, with the
    kernel-global external-work counter ([Kernel::work]).  [tasks] is a
    [MapCell]: [None] while it is empty. *)
Record EmulatedProcess := mkEmulatedProcess {
  state : State;
  tasks : option (list Task);
  dropped_callback_count : nat;
  work : Z;
}.

(** [EmulatedProcess::create], on a kernel whose counter is [work0]: the
    stored state's [MapCell] is full and [initialize_process] returns
    [Ok], so creation succeeds. *)
Definition create (work0 : Z) : EmulatedProcess :=
  mkEmulatedProcess Unstarted
    (Some [TaskFunctionCall (mkFunctionCall Kernel 0 0 0 0 0)]) 0 (work0 + 1).

Definition is_active (p : EmulatedProcess) : bool :=
  negb (State_eqb (state p) StoppedFaulted) && negb (State_eqb (state p) Fault).

Definition increment_work_external (p : EmulatedProcess) : EmulatedProcess :=
  mkEmulatedProcess (state p) (tasks p) (dropped_callback_count p) (work p + 1).

Definition decrement_work_external (p : EmulatedProcess) : EmulatedProcess :=
  mkEmulatedProcess (state p) (tasks p) (dropped_callback_count p) (work p - 1).

Definition set_state (s : State) (p : EmulatedProcess) : EmulatedProcess :=
  mkEmulatedProcess s (tasks p) (dropped_callback_count p) (work p).

Definition set_tasks (q : list Task) (p : EmulatedProcess) : EmulatedProcess :=
  mkEmulatedProcess (state p) (Some q) (dropped_callback_count p) (work p).

(** [enqueue_task]. *)
Definition enqueue_task (task : Task) (p : EmulatedProcess) : bool * EmulatedProcess :=
  if negb (is_active p) then (false, p)
  else
    let p1 := increment_work_external p in
    match tasks p1 with
    | Some q => (true, set_tasks (q ++ [task]) p1)
    | None =>
        (false, mkEmulatedProcess (state p1) (tasks p1)
                  (S (dropped_callback_count p1)) (work p1))
    end.

(** [dequeue_task]. *)
Definition dequeue_task (p : EmulatedProcess) : option Task * EmulatedProcess :=
  match tasks p with
  | None => (None, p)
  | Some [] => (None, p)
  | Some (cb :: rest) => (Some cb, decrement_work_external (set_tasks rest p))
  end.

(** [remove_pending_callbacks]. *)
Definition keep_task (callback_id : nat) (task : Task) : bool :=
  match task with
  | TaskFunctionCall call =>
      match source call with
      | Kernel => true
      | Driver id => negb (Nat.eqb id callback_id)
      end
  | _ => true
  end.

Definition remove_pending_callbacks (callback_id : nat) (p : EmulatedProcess)
    : EmulatedProcess :=
  match tasks p with
  | None => p
  | Some q => set_tasks (filter (keep_task callback_id) q) p
  end.

(** [set_yielded_state]. *)
Definition set_yielded_state (p : EmulatedProcess) : EmulatedProcess :=
  if State_eqb (state p) Running
  then decrement_work_external (set_state Yielded p)
  else p.

(** [stop] and [resume]. *)
Definition stop (p : EmulatedProcess) : EmulatedProcess :=
  match state p with
  | Running => set_state StoppedRunning p
  | Yielded => set_state StoppedYielded p
  | _ => p
  end.

Definition resume (p : EmulatedProcess) : EmulatedProcess :=
  match state p with
  | StoppedRunning => set_state Running p
  | StoppedYielded => set_state Yielded p
  | _ => p
  end.

(** [set_process_function]: the stored state's [MapCell] is full and the
    boundary's [set_process_function] returns [Ok], so the [Some(Ok(_))]
    branch is the one taken. *)
Definition set_process_function (p : EmulatedProcess) : EmulatedProcess :=
  set_state Running (increment_work_external p).

(** The calls the kernel makes on the process. *)
Inductive op :=
| OpEnqueue (t : Task)
| OpDequeue
| OpRemovePendingCallbacks (id : nat)
| OpSetYieldedState
| OpStop
| OpResume
| OpSetProcessFunction.

Definition exec_op (o : op) (p : EmulatedProcess) : EmulatedProcess :=
  match o with
  | OpEnqueue t => snd (enqueue_task t p)
  | OpDequeue => snd (dequeue_task p)
  | OpRemovePendingCallbacks id => remove_pending_callbacks id p
  | OpSetYieldedState => set_yielded_state p
  | OpStop => stop p
  | OpResume => resume p
  | OpSetProcessFunction => set_process_function p
  end.

(** The processes a run reaches: created on a kernel whose counter is
    not negative, then any sequence of calls. *)
Inductive reachable : EmulatedProcess -> Prop :=
| reach_create (work0 : Z) : 0 <= work0 -> reachable (create work0)
| reach_step (o : op) (p : EmulatedProcess) : reachable p -> reachable (exec_op o p).

End Adapter.

(* ------------------------------------------------------------------ *)
(** ** The interrupt lower half ([interrupt.rs]) *)

Module Interrupts.

(** [Interrupt { source: u32 }], ordered by [source]. *)
Definition Interrupt := Z.

(** [std::time::Duration], in nanoseconds. *)
Definition Duration := Z.

Definition Duration_from_millis (ms : Z) : Duration := ms * 1000000.
Definition Duration_from_micros (us : Z) : Duration := us * 1000.

(** [u128 as u64]. *)
Definition u128_as_u64 (x : Z) : Z := x mod 2 ^ 64.

(** The lower half and the channel it reads from: the interrupts the
    upper half has sent, oldest first, each with the time it was sent (in
    nanoseconds), and the current time; [pending] is the [BinaryHeap]. *)
Record LowerHalf := mkLowerHalf {
  channel : list (Z * Interrupt);
  now : Z;
  pending : list Interrupt;
}.

(** [Receiver::try_recv]: the oldest interrupt, if it has been sent. *)
Definition try_recv (l : LowerHalf) : option Interrupt * LowerHalf :=
  match channel l with
  | (t, i) :: rest =>
      if Z.leb t (now l) then (Some i, mkLowerHalf rest (now l) (pending l))
      else (None, l)
  | [] => (None, l)
  end.

(** [Receiver::recv_timeout(d)]: the oldest interrupt if it is sent
    within [d], when it is sent; otherwise [Timeout] once [d] has passed. *)
Definition recv_timeout (d : Duration) (l : LowerHalf) : option Interrupt * LowerHalf :=
  match channel l with
  | (t, i) :: rest =>
      if Z.leb t (now l + d)
      then (Some i, mkLowerHalf rest (Z.max t (now l)) (pending l))
      else (None, mkLowerHalf (channel l) (now l + d) (pending l))
  | [] => (None, mkLowerHalf (channel l) (now l + d) (pending l))
  end.

(** [BinaryHeap::push] and [BinaryHeap::pop] (a max-heap). *)
Definition heap_push (i : Interrupt) (h : list Interrupt) : list Interrupt := i :: h.

Fixpoint heap_max (m : Z) (h : list Interrupt) : Z :=
  match h with
  | [] => m
  | x :: rest => heap_max (Z.max m x) rest
  end.

Fixpoint remove_one (x : Z) (h : list Interrupt) : list Interrupt :=
  match h with
  | [] => []
  | y :: rest => if Z.eqb y x then rest else y :: remove_one x rest
  end.

Definition heap_pop (h : list Interrupt) : option (Interrupt * list Interrupt) :=
  match h with
  | [] => None
  | x :: rest => let m := heap_max x rest in Some (m, remove_one m h)
  end.

Definition push_pending (i : Interrupt) (l : LowerHalf) : LowerHalf :=
  mkLowerHalf (channel l) (now l) (heap_push i (pending l)).

(** The duration [receive_interrupts] waits for on [Some(wait_us)]. *)
Definition receive_timeout (wait_us : Z) : Duration :=
  Duration_from_millis (u128_as_u64 wait_us).

(** [LowerHalf::receive_interrupts]: the error branches only log. *)
Definition receive_interrupts (wait_us : option Z) (l : LowerHalf) : LowerHalf :=
  match wait_us with
  | None =>
      match try_recv l with
      | (Some i, l') => push_pending i l'
      | (None, l') => l'
      end
  | Some us =>
      match recv_timeout (receive_timeout us) l with
      | (Some i, l') => push_pending i l'
      | (None, l') => l'
      end
  end.

(** A call returns, or panics with a message. *)
Inductive outcome (A : Type) :=
| Returns (a : A)
| Panics (msg : string).
Arguments Returns {A} a.
Arguments Panics {A} msg.

Definition pop_pending (l : LowerHalf) : option Interrupt * LowerHalf :=
  match heap_pop (pending l) with
  | Some (i, h) => (Some i, mkLowerHalf (channel l) (now l) h)
  | None => (None, l)
  end.

(** [LowerHalf::wait_for_interrupt]. *)
Definition wait_for_interrupt (wait_us : option Z) (l : LowerHalf)
    : outcome (option Interrupt * LowerHalf) :=
  let l1 := receive_interrupts wait_us l in
  match pop_pending l1 with
  | (Some i, l2) => Returns (Some i, l2)
  | (None, l2) =>
      match wait_us with
      | Some _ => Panics "Received empty interrupt."
      | None => Returns (None, l2)
      end
  end.

(** [LowerHalf::has_pending_interrupts]. *)
Definition has_pending_interrupts (l : LowerHalf) : bool * LowerHalf :=
  let l1 := receive_interrupts None l in
  (match pending l1 with [] => false | _ => true end, l1).

(** [Iterator::next] for [&mut LowerHalf]. *)
Definition next (l : LowerHalf) : option Interrupt * LowerHalf :=
  pop_pending (receive_interrupts None l).

(** [n] successive calls of [next]. *)
Fixpoint next_n (n : nat) (l : LowerHalf) : list (option Interrupt) :=
  match n with
  | O => []
  | S n' => let '(i, l') := next l in i :: next_n n' l'
  end.

(** [UpperHalf::spin] forwarding the sources [srcs] at time [t]. *)
Definition upper_half_send (t : Z) (srcs : list Interrupt) (l : LowerHalf) : LowerHalf :=
  mkLowerHalf (channel l ++ map (fun s => (t, s)) srcs) (now l) (pending l).

End Interrupts.

(* ------------------------------------------------------------------ *)
(** ** The app's side of the [Syscall] frame ([common_types.rs]) *)

(** The bytes of a word as [#[derive(AsBytes)]] lays it out in a packed
    record on a little-endian target: least significant byte first. *)
Fixpoint le_bytes (n : nat) (x : Z) : list Z :=
  match n with
  | O => []
  | S n' => x mod 256 :: le_bytes n' (x / 256)
  end.

(** [Syscall::as_bytes()]: the five packed words in field order. *)
Definition Syscall_as_bytes (s : Syscall_frame) : list Z :=
  flat_map (le_bytes usize_bytes) (syscall_number s :: sc_args s).

(** [Syscall::new] and its shorthands. *)
Definition Syscall_new (syscall_number arg0 arg1 arg2 arg3 : Z) : Syscall_frame :=
  mkSyscall_frame syscall_number [arg0; arg1; arg2; arg3].

Definition Syscall_new3 (syscall_number arg0 arg1 arg2 : Z) : Syscall_frame :=
  Syscall_new syscall_number arg0 arg1 arg2 0.

Definition Syscall_new2 (syscall_number arg0 arg1 : Z) : Syscall_frame :=
  Syscall_new3 syscall_number arg0 arg1 0.

Definition Syscall_new1 (syscall_number arg0 : Z) : Syscall_frame :=
  Syscall_new2 syscall_number arg0 0.

Definition Syscall_new0 (syscall_number : Z) : Syscall_frame :=
  Syscall_new1 syscall_number 0.

(* ------------------------------------------------------------------ *)
(** ** The system tick ([systick.rs]) *)

Module SysTick.

(** [SysTick]: [start_time] is a [SystemTime] reading, in nanoseconds;
    every method that reads [SystemTime::now()] takes the reading as
    [clock]. *)
Record SysTick := mkSysTick {
  start_time : Z;
  set_duration_us : Z;
  enabled : bool;
}.

Definition new (clock : Z) : SysTick := mkSysTick clock 0 true.

(** [elapsed_us]: [duration_since] fails when the clock reads earlier
    than [start_time]; [as_micros] truncates. *)
Definition elapsed_us (clock : Z) (s : SysTick) : option Z :=
  if Z.leb (start_time s) clock then Some ((clock - start_time s) / 1000) else None.

Definition set_timer (clock : Z) (us : Z) (s : SysTick) : SysTick :=
  mkSysTick clock us (enabled s).

Definition greater_than (clock : Z) (us : Z) (s : SysTick) : bool :=
  if negb (enabled s) then false
  else
    match elapsed_us clock s with
    | None => false
    | Some elapsed =>
        let remaining_us :=
          if Z.ltb elapsed (set_duration_us s) then set_duration_us s - elapsed else 0 in
        Z.leb us remaining_us
    end.

Definition overflowed (clock : Z) (s : SysTick) : bool :=
  if negb (enabled s) then true
  else
    match elapsed_us clock s with
    | None => true
    | Some elapsed => Z.ltb (set_duration_us s) elapsed
    end.

Definition reset (clock : Z) (s : SysTick) : SysTick :=
  set_timer clock 0 (mkSysTick (start_time s) (set_duration_us s) false).

Definition enable (with_interrupt : bool) (s : SysTick) : Interrupts.outcome SysTick :=
  let s' := mkSysTick (start_time s) (set_duration_us s) true in
  if with_interrupt then Interrupts.Panics "Timer interrupts not implemented"
  else Interrupts.Returns s'.

End SysTick.

(* ------------------------------------------------------------------ *)
(** ** The interrupt upper half and the chip's interrupt loop *)

Module InterruptLoop.

Import Interrupts.

(** [size_of::<Interrupt>()]: one [u32]. *)
Definition size_of_Interrupt : nat := 4.

(** [self.source.recv(&mut buf)]: as much of the datagram as fits is
    copied over the start of [buf]; the rest of [buf] keeps its bytes. *)
Definition spin_recv (buf : list Z) (d : list Z) : list Z :=
  let n := Nat.min (length d) (length buf) in
  firstn n d ++ skipn n buf.

(** The loop of [UpperHalf::spin] over the datagrams [ds] that arrive on
    its socket, with one buffer for all iterations.  The interrupts it
    sends ([transmute] of the buffer to a [u32]) are returned in order;
    [None] means it is still blocked in [recv], waiting for the next
    datagram, and [Some ChannelError] that a send failed because the
    lower half is gone ([receiver_alive = false]). *)
Fixpoint spin_loop (receiver_alive : bool) (buf : list Z) (ds : list (list Z))
    : list Interrupt * option EmulationError :=
  match ds with
  | [] => ([], None)
  | d :: rest =>
      let buf' := spin_recv buf d in
      if receiver_alive then
        let '(sent, e) := spin_loop receiver_alive buf' rest in (le_word buf' :: sent, e)
      else ([], Some ChannelError)
  end.

Definition spin (receiver_alive : bool) (ds : list (list Z))
    : list Interrupt * option EmulationError :=
  spin_loop receiver_alive (repeat 0 size_of_Interrupt) ds.

(** [HostChip::service_pending_interrupts]: [for interrupt in irq_lower]
    calls [next] until it returns [None] and hands each interrupt to
    [dispatch_interrupt], which does nothing; the interrupts are returned
    in the order they were dispatched.  Each [Some] takes one interrupt
    out of the channel and the heap together, so the loop runs at most
    [length (channel l) + length (pending l)] times before [next] returns
    [None]: [fuel] is that bound plus one. *)
Fixpoint service_loop (fuel : nat) (l : LowerHalf) : list Interrupt * LowerHalf :=
  match fuel with
  | O => ([], l)
  | S fuel' =>
      match next l with
      | (Some i, l') => let '(is, l'') := service_loop fuel' l' in (i :: is, l'')
      | (None, l') => ([], l')
      end
  end.

Definition service_pending_interrupts (l : LowerHalf) : list Interrupt * LowerHalf :=
  service_loop (S (length (channel l) + length (pending l))) l.

(** The interrupts of the channel that [try_recv] can reach at time
    [now]: the ones sent by then, up to the first that is not. *)
Fixpoint arrived (now : Z) (ch : list (Z * Interrupt)) : list Interrupt :=
  match ch with
  | (t, i) :: rest => if Z.leb t now then i :: arrived now rest else []
  | [] => []
  end.

End InterruptLoop.

(* ================================================================== *)
(** * Properties *)

(** ** The allow map *)

Lemma entries_get_insert_same (h : Z -> Z) (k : Z) (v : AllowSlice) es :
  entries_get k (entries_insert h k v es) = Some v.
Proof.
  induction es as [| [k' v'] rest IH]; simpl.
  - now rewrite Z.eqb_refl.
  - destruct (Z.eqb k' k) eqn:E; simpl.
    + now rewrite Z.eqb_refl.
    + destruct (Z.ltb (h k) (h k')); simpl.
      * now rewrite Z.eqb_refl.
      * now rewrite E.
Qed.

Lemma entries_get_insert_other (h : Z -> Z) (k k0 : Z) (v : AllowSlice) es :
  k0 <> k -> entries_get k0 (entries_insert h k v es) = entries_get k0 es.
Proof.
  intros Hne.
  assert (Hb : Z.eqb k k0 = false) by (apply Z.eqb_neq; congruence).
  induction es as [| [k' v'] rest IH]; simpl.
  - now rewrite Hb.
  - destruct (Z.eqb k' k) eqn:E; simpl.
    + apply Z.eqb_eq in E; subst k'. now rewrite Hb.
    + destruct (Z.ltb (h k) (h k')); simpl.
      * now rewrite Hb.
      * destruct (Z.eqb k' k0); auto.
Qed.

Lemma entries_get_update_other (k k0 : Z) f es :
  k0 <> k -> entries_get k0 (entries_update k f es) = entries_get k0 es.
Proof.
  intros Hne.
  induction es as [| [k' v'] rest IH]; simpl; auto.
  destruct (Z.eqb k' k) eqn:E; simpl.
  - apply Z.eqb_eq in E; subst k'.
    assert (Hb : Z.eqb k k0 = false) by (apply Z.eqb_neq; congruence).
    now rewrite Hb.
  - destruct (Z.eqb k' k0); auto.
Qed.

Lemma entries_update_keys (k : Z) f es :
  map fst (entries_update k f es) = map fst es.
Proof.
  induction es as [| [k' v'] rest IH]; simpl; auto.
  destruct (Z.eqb k' k); simpl; congruence.
Qed.

(** ** C8: [UnixProcess::allow] *)

(** What [allow] does to the map and what it returns. *)
Lemma allow_result (app_addr len : Z) (w : World) :
  if Z.eqb app_addr 0 then allow app_addr len w = (Ok app_addr, w)
  else if Z.ltb isize_max len then
    allow app_addr len w = (Panic "capacity overflow"%string, w)
  else exists ptr w',
    allow app_addr len w = (Ok ptr, w') /\
    HashMap_get app_addr (allow_map w') =
      Some (mkAllowSlice ptr (repeat 0 (Z.to_nat len)) false) /\
    (forall k, k <> app_addr -> HashMap_get k (allow_map w') = HashMap_get k (allow_map w)).
Proof.
  unfold allow.
  destruct (Z.eqb app_addr 0) eqn:E0; [reflexivity |].
  unfold alloc_zeroed, bind, get, ret, put, modify, panic.
  destruct (Z.ltb isize_max len) eqn:Eb; [reflexivity |].
  destruct (Z.eqb len 0) eqn:El.
  - apply Z.eqb_eq in El; subst len.
    eexists; eexists; split; [reflexivity |]. simpl.
    split.
    + unfold HashMap_get, HashMap_insert; simpl.
      apply entries_get_insert_same.
    + intros k Hk. unfold HashMap_get, HashMap_insert; simpl.
      now apply entries_get_insert_other.
  - eexists; eexists; split; [reflexivity |]. simpl.
    split.
    + unfold HashMap_get, HashMap_insert; simpl.
      apply entries_get_insert_same.
    + intros k Hk. unfold HashMap_get, HashMap_insert; simpl.
      now apply entries_get_insert_other.
Qed.

(** C8 (as the code does it): [allow(app_addr, len)] returns null and
    changes nothing when [app_addr] is null.  Otherwise a length over
    [isize::MAX], which the app chooses, makes [vec!] panic with "capacity
    overflow" before anything changes; for any other length [allow] returns
    the pointer of a fresh zero-filled buffer of [len] bytes that the map
    now holds under [app_addr] with [valid = false], replacing whatever was
    there, and leaves every other key's entry as it was. *)
Theorem allow_spec (app_addr len : Z) (w : World) :
  if Z.eqb app_addr 0 then allow app_addr len w = (Ok app_addr, w)
  else if Z.ltb isize_max len then
    allow app_addr len w = (Panic "capacity overflow"%string, w)
  else exists ptr w',
    allow app_addr len w = (Ok ptr, w') /\
    HashMap_get app_addr (allow_map w') =
      Some (mkAllowSlice ptr (repeat 0 (Z.to_nat len)) false) /\
    (forall k, k <> app_addr -> HashMap_get k (allow_map w') = HashMap_get k (allow_map w)).
Proof. exact (allow_result app_addr len w). Qed.

(** ** C10: no process in the stored state *)

(** C10: on a stored state without a process, [switch_to_process]
    returns [Fault] and leaves the stored state and the world (no child
    spawned, nothing sent or received, allow map untouched) as they were. *)
Theorem switch_to_process_no_process (st : HostStoredState) (w : World) :
  process st = None -> switch_to_process st w = (Fault, st, w).
Proof.
  intros H. unfold switch_to_process. now rewrite H.
Qed.

Lemma switch_to_process_no_process_witness :
  process (mkHostStoredState None KernelReturn_default) = None /\
  switch_to_process (mkHostStoredState None KernelReturn_default)
    (mkWorld [[1]] false true [] 0 false (HashMap_new (fun k => k)) 4096)
  = (Fault, mkHostStoredState None KernelReturn_default,
     mkWorld [[1]] false true [] 0 false (HashMap_new (fun k => k)) 4096).
Proof.
  split; [reflexivity |].
  apply switch_to_process_no_process. reflexivity.
Defined.

(** ** The unyield exchange on concrete inputs *)

(** A 40-byte [Syscall] frame with number [n] and zero arguments. *)
Definition syscall_frame_bytes (n : Z) : list Z :=
  [n; 0; 0; 0; 0; 0; 0; 0] ++ repeat 0 32.

(** A started process (id 7) whose allow map holds one region, app address
    0x2000, four bytes [5; 5; 5; 5], already received from the app; the
    app has queued four bytes [9; 9; 9; 9] and then a [Syscall] frame. *)
Definition world_one_valid_slice : World :=
  mkWorld [[9; 9; 9; 9]; syscall_frame_bytes 1] false true [] 7 true
    (mkHashMap (fun k => k) [(8192, mkAllowSlice 4096 [5; 5; 5; 5] true)]) 4100.

(** C1: an unyield carrying a [KernelReturn], on the process above.  After
    the [KernelReturn] the kernel reads the region from the app (the bytes
    [9; 9; 9; 9] overwrite [5; 5; 5; 5]); after the [Syscall] frame it
    sends the region to the app.  The claim has the region's bytes
    [5; 5; 5; 5] sent to the app right after the [KernelReturn] and read
    from the app after the [Syscall]. *)
Theorem unyield_transfer_directions :
  let w' := snd (unyield (Some (KernelReturn_new_ret 0)) world_one_valid_slice) in
  wire w' =
    [TxKernelReturn (KernelReturn_new_ret 0);
     TxPreamble (AllowedRegionPreamble_new 8192 4);
     RxDatagram [9; 9; 9; 9];
     TxPreamble AllowedRegionPreamble_new_null;
     RxDatagram (syscall_frame_bytes 1);
     TxPreamble (AllowedRegionPreamble_new 8192 4);
     TxBytes [9; 9; 9; 9];
     TxPreamble AllowedRegionPreamble_new_null]
  /\ ~ In (TxBytes [5; 5; 5; 5]) (wire w').
Proof.
  vm_compute. split; [reflexivity |].
  intros H. repeat (destruct H as [H | H]; [discriminate H |]). exact H.
Qed.

(** A process that has not been started yet (id 7), an empty allow map,
    and an app whose first datagram is the single byte [1]. *)
Definition world_short_frame : World :=
  mkWorld [[1]] false true [] 7 false (HashMap_new (fun k => k)) 4096.

(** C2: [recv::<Syscall>] on a one-byte datagram returns a typed view
    (the byte, padded with the zeroes the buffer held) instead of an
    error, and [switch_to_process] returns [SyscallFired], not [Fault]. *)
Theorem short_frame_accepted :
  fst (recv_syscall (repeat 0 size_of_Syscall) world_short_frame)
    = Ok (mkSyscall_frame 1 [0; 0; 0; 0]) /\
  fst (fst (switch_to_process HostStoredState_new world_short_frame))
    = SyscallFired (SUBSCRIBE 0 0 0 0).
Proof. split; vm_compute; reflexivity. Qed.

(** C9: for the deadline [Some(5)] (five microseconds),
    [receive_interrupts] waits [Duration::from_millis(5)], i.e. 5000
    microseconds, not 5. *)
Theorem receive_timeout_in_millis :
  Interrupts.receive_timeout 5 = Interrupts.Duration_from_micros 5000 /\
  Interrupts.receive_timeout 5 <> Interrupts.Duration_from_micros 5.
Proof. split; vm_compute; congruence. Qed.

(** ** The interrupt lower half *)

Module InterruptProps.
Import Interrupts.

(** C3 (counterexample): with a deadline, nothing pending and nothing
    arriving, [wait_for_interrupt] panics instead of returning [None]. *)
Lemma wait_for_interrupt_empty_deadline_panics :
  wait_for_interrupt (Some 5) (mkLowerHalf [] 0 []) = Panics "Received empty interrupt.".
Proof. reflexivity. Qed.

(** C3 (as the code does it): when nothing is pending once
    [receive_interrupts] has run (no interrupt received and none pending
    before), [wait_for_interrupt(None)] returns [None] and
    [wait_for_interrupt(Some(d))] panics with "Received empty interrupt.". *)
Theorem wait_for_interrupt_empty (wait_us : option Z) (l : LowerHalf) :
  pending (receive_interrupts wait_us l) = [] ->
  wait_for_interrupt wait_us l =
    match wait_us with
    | None => Returns (None, receive_interrupts None l)
    | Some _ => Panics "Received empty interrupt."
    end.
Proof.
  intros H. unfold wait_for_interrupt, pop_pending.
  rewrite H. simpl. destruct wait_us; reflexivity.
Qed.

Lemma wait_for_interrupt_empty_witness :
  pending (receive_interrupts (Some 5) (mkLowerHalf [] 0 [])) = [] /\
  wait_for_interrupt (Some 5) (mkLowerHalf [] 0 []) = Panics "Received empty interrupt.".
Proof.
  split; [reflexivity |].
  apply (wait_for_interrupt_empty (Some 5) (mkLowerHalf [] 0 [])). reflexivity.
Defined.

Lemma heap_max_ge (m : Z) (h : list Interrupt) : m <= heap_max m h.
Proof.
  revert m. induction h as [| x rest IH]; intros m; simpl; [lia |].
  specialize (IH (Z.max m x)). lia.
Qed.

Lemma heap_max_upper (m : Z) (h : list Interrupt) :
  Forall (fun x => x <= heap_max m h) h.
Proof.
  revert m. induction h as [| x rest IH]; intros m; simpl; constructor; auto.
  pose proof (heap_max_ge (Z.max m x) rest). lia.
Qed.

Lemma heap_max_in (m : Z) (h : list Interrupt) :
  heap_max m h = m \/ In (heap_max m h) h.
Proof.
  revert m. induction h as [| x rest IH]; intros m; simpl; [now left |].
  destruct (IH (Z.max m x)) as [E | I].
  - rewrite E. destruct (Z.max_spec m x) as [[_ M] | [_ M]]; rewrite M; auto.
  - auto.
Qed.

Lemma remove_one_perm (x : Z) (h : list Interrupt) :
  In x h -> Permutation (x :: remove_one x h) h.
Proof.
  induction h as [| y rest IH]; simpl; [tauto |].
  intros Hin. destruct (Z.eqb y x) eqn:E.
  - apply Z.eqb_eq in E. subst y. reflexivity.
  - destruct Hin as [Hyx | Hin]; [apply Z.eqb_neq in E; congruence |].
    rewrite perm_swap. constructor. auto.
Qed.

(** Every pop of the heap returns its greatest element and leaves the rest. *)
Lemma heap_pop_max (h : list Interrupt) :
  match heap_pop h with
  | Some (m, h') => In m h /\ Forall (fun x => x <= m) h /\ Permutation (m :: h') h
  | None => h = []
  end.
Proof.
  destruct h as [| x rest]; simpl; [reflexivity |].
  assert (Hin : In (heap_max x rest) (x :: rest)).
  { destruct (heap_max_in x rest) as [E | I]; [left; auto | right; auto]. }
  split; [exact Hin |]. split.
  - constructor; [apply heap_max_ge | apply heap_max_upper].
  - apply remove_one_perm in Hin. simpl in Hin. exact Hin.
Qed.

(** C4 (counterexample): with [3; 9; 1; 7] sent through the upper half to
    an empty lower half, four iterator pops yield them in the order they
    were sent, not [9; 7; 3; 1]. *)
Lemma iterator_pops_3_9_1_7 :
  next_n 4 (upper_half_send 0 [3; 9; 1; 7] (mkLowerHalf [] 0 []))
    <> map Some [9; 7; 3; 1].
Proof. vm_compute. congruence. Qed.

(** C4 (as the code does it): the non-blocking drain moves at most one
    interrupt, the oldest one already sent, from the channel into the heap;
    every iterator pop returns the greatest source id in the heap after
    that drain (and leaves the others); so [3; 9; 1; 7] sent to an empty
    lower half come out as [3; 9; 1; 7]. *)
Theorem drain_one_then_pop_max (l : LowerHalf) :
  (receive_interrupts None l = l \/
   exists t i, channel l = (t, i) :: channel (receive_interrupts None l) /\
               t <= now l /\
               now (receive_interrupts None l) = now l /\
               pending (receive_interrupts None l) = i :: pending l) /\
  (let l1 := receive_interrupts None l in
   match next l with
   | (Some m, l') => In m (pending l1) /\ Forall (fun x => x <= m) (pending l1) /\
                     Permutation (m :: pending l') (pending l1)
   | (None, _) => pending l1 = []
   end) /\
  next_n 4 (upper_half_send 0 [3; 9; 1; 7] (mkLowerHalf [] 0 []))
    = map Some [3; 9; 1; 7].
Proof.
  split; [| split].
  - unfold receive_interrupts, try_recv.
    destruct (channel l) as [| [t i] rest] eqn:Ec; [now left |].
    destruct (Z.leb t (now l)) eqn:Et; [right | now left].
    exists t, i. simpl. apply Z.leb_le in Et. auto.
  - simpl. unfold next, pop_pending.
    pose proof (heap_pop_max (pending (receive_interrupts None l))) as Hp.
    destruct (heap_pop (pending (receive_interrupts None l))) as [[m h'] |]; exact Hp.
  - vm_compute. reflexivity.
Qed.

End InterruptProps.

(** ** Work accounting of the emulated process *)

Module AdapterProps.
Import Adapter.

(** The process counts towards the work counter while it runs. *)
Definition running_weight (s : State) : Z :=
  match s with
  | Running | StoppedRunning => 1
  | _ => 0
  end.

(** In every reachable process the task queue's [MapCell] is full and the
    counter covers the queued tasks and the running process. *)
Definition work_invariant (p : EmulatedProcess) : Prop :=
  exists q, tasks p = Some q /\
            Z.of_nat (length q) + running_weight (state p) <= work p.

Lemma work_invariant_create (work0 : Z) :
  0 <= work0 -> work_invariant (create work0).
Proof. intros H. exists [TaskFunctionCall (mkFunctionCall Kernel 0 0 0 0 0)]. simpl. split; [reflexivity | lia]. Qed.

Lemma work_invariant_step (o : op) (p : EmulatedProcess) :
  work_invariant p -> work_invariant (exec_op o p).
Proof.
  intros [q [Hq Hw]].
  destruct o as [t | | id | | | |]; simpl.
  - unfold enqueue_task. destruct (is_active p); simpl.
    + rewrite Hq. exists (q ++ [t]). simpl. split; [reflexivity |].
      rewrite length_app. simpl. lia.
    + exists q. split; [exact Hq | lia].
  - unfold dequeue_task. rewrite Hq. destruct q as [| cb rest]; simpl.
    + exists []. split; [exact Hq | exact Hw].
    + exists rest. change (length (cb :: rest)) with (S (length rest)) in Hw. rewrite Nat2Z.inj_succ in Hw.
      split; [reflexivity |]. cbn [state work decrement_work_external set_tasks]. lia.
  - unfold remove_pending_callbacks. rewrite Hq.
    exists (filter (keep_task id) q). simpl. split; [reflexivity |].
    pose proof (filter_length_le (keep_task id) q). lia.
  - unfold set_yielded_state.
    destruct (state p) eqn:Es; simpl; exists q; rewrite ?Es in Hw; simpl in Hw;
      split; try exact Hq; rewrite ?Es; simpl; lia.
  - unfold stop.
    destruct (state p) eqn:Es; simpl; exists q; rewrite ?Es in Hw; simpl in Hw;
      split; try exact Hq; rewrite ?Es; simpl; lia.
  - unfold resume.
    destruct (state p) eqn:Es; simpl; exists q; rewrite ?Es in Hw; simpl in Hw;
      split; try exact Hq; rewrite ?Es; simpl; lia.
  - unfold set_process_function. exists q. simpl. split; [exact Hq |].
    destruct (state p); simpl in Hw; lia.
Qed.

Lemma reachable_work_invariant (p : EmulatedProcess) :
  reachable p -> work_invariant p.
Proof.
  induction 1.
  - now apply work_invariant_create.
  - now apply work_invariant_step.
Qed.

(** C6: creation adds one to the counter (for the pc = 0 exec task); in
    every reachable process the counter is not negative, an [enqueue_task]
    that returns [true] adds one and one that returns [false] leaves it,
    and a [dequeue_task] that returns a task subtracts one (one that
    returns none leaves it). *)
Theorem work_accounting (p : EmulatedProcess) :
  reachable p ->
  (forall work0, work (create work0) = work0 + 1 /\
                 tasks (create work0) = Some [TaskFunctionCall (mkFunctionCall Kernel 0 0 0 0 0)]) /\
  0 <= work p /\
  (forall t, let '(b, p') := enqueue_task t p in
             if b then work p' = work p + 1 else work p' = work p) /\
  (match dequeue_task p with
   | (Some _, p') => work p' = work p - 1
   | (None, p') => work p' = work p
   end).
Proof.
  intros Hr.
  destruct (reachable_work_invariant p Hr) as [q [Hq Hw]].
  split; [intros; split; reflexivity |].
  split; [pose proof (Zle_0_nat (length q)); destruct (state p); simpl in Hw; lia |].
  split.
  - intros t. unfold enqueue_task.
    destruct (is_active p); simpl; [| reflexivity].
    rewrite Hq. simpl. reflexivity.
  - unfold dequeue_task. rewrite Hq.
    destruct q; simpl; reflexivity.
Qed.

Lemma work_accounting_witness :
  reachable (exec_op OpDequeue (create 0)) /\ 0 <= work (exec_op OpDequeue (create 0)).
Proof.
  assert (H : reachable (exec_op OpDequeue (create 0))).
  { apply reach_step. apply reach_create. lia. }
  split; [exact H |].
  apply (work_accounting (exec_op OpDequeue (create 0)) H).
Defined.

End AdapterProps.

(** ** The preambles of an allow-region transfer *)

Module TransferProps.

(** The preambles among the frames of a wire log. *)
Fixpoint preambles_of (evs : list wire_event) : list AllowedRegionPreamble :=
  match evs with
  | [] => []
  | TxPreamble p :: rest => p :: preambles_of rest
  | _ :: rest => preambles_of rest
  end.

Lemma preambles_of_app (a b : list wire_event) :
  preambles_of (a ++ b) = preambles_of a ++ preambles_of b.
Proof.
  induction a as [| e rest IH]; simpl; auto.
  destruct e; simpl; rewrite ?IH; reflexivity.
Qed.

(** The preambles one entry contributes, as the loop decides it. *)
Definition entry_preambles (send : bool) (k : Z) (o : option AllowSlice)
    : list AllowedRegionPreamble :=
  match o with
  | Some s => if send && negb (valid s) then []
              else [AllowedRegionPreamble_new k (AllowSlice_len s)]
  | None => []
  end.

Lemma transfer_one_spec (id : nat) (send : bool) (k : Z) (w : World) :
  match transfer_one id send k w with
  | (Ok _, w') =>
      exists evs, wire w' = wire w ++ evs /\
        preambles_of evs = entry_preambles send k (HashMap_get k (allow_map w)) /\
        (forall k', k' <> k -> HashMap_get k' (allow_map w') = HashMap_get k' (allow_map w))
  | (Err _, _) | (Panic _, _) => True
  end.
Proof.
  unfold transfer_one, bind, get, ret, put.
  destruct (HashMap_get k (allow_map w)) as [s |] eqn:Hg; simpl.
  2:{ exists []. rewrite app_nil_r. auto. }
  destruct (send && negb (valid s)) eqn:Hs; simpl.
  { exists []. rewrite app_nil_r. auto. }
  unfold send_preamble, tx_send, bind, get, modify, fail.
  destruct (tx_connected w) eqn:Hc; simpl; [| exact I].
  destruct send; simpl.
  - unfold send_bytes, tx_send, bind, get, modify, fail. simpl. rewrite Hc. simpl.
    eexists. split; [rewrite <- app_assoc; reflexivity |].
    split; [reflexivity | auto].
  - unfold rx_recv, bind, get, put, ret, fail. simpl.
    destruct (inbox w) as [| d rest] eqn:Hi; simpl; [exact I |].
    unfold recv_bytes_check, ret, fail.
    destruct (Nat.eqb _ _); simpl; [| exact I].
    eexists. split; [rewrite <- app_assoc; reflexivity |].
    split; [reflexivity |].
    intros k' Hk'. unfold HashMap_get, HashMap_update. simpl.
    rewrite !entries_get_update_other by exact Hk'. reflexivity.
Qed.

Lemma flat_map_ext_in {A B} (f g : A -> list B) (l : list A) :
  (forall x, In x l -> f x = g x) -> flat_map f l = flat_map g l.
Proof.
  induction l as [| x rest IH]; simpl; intros H; auto.
  rewrite H by auto. rewrite IH by auto. reflexivity.
Qed.

Lemma transfer_entries_spec (id : nat) (send : bool) (ks : list Z) (w : World) :
  NoDup ks ->
  match transfer_entries id send ks w with
  | (Ok _, w') =>
      exists evs, wire w' = wire w ++ evs /\
        preambles_of evs =
          flat_map (fun k => entry_preambles send k (HashMap_get k (allow_map w))) ks /\
        (forall k', ~ In k' ks -> HashMap_get k' (allow_map w') = HashMap_get k' (allow_map w))
  | (Err _, _) | (Panic _, _) => True
  end.
Proof.
  revert w. induction ks as [| k ks IH]; intros w Hnd; simpl.
  - exists []. rewrite app_nil_r. auto.
  - inversion Hnd as [| ? ? Hnin Hnd']; subst.
    unfold bind at 1.
    pose proof (transfer_one_spec id send k w) as H1.
    destruct (transfer_one id send k w) as [[u | e | m] w1]; [| exact I | exact I].
    destruct H1 as [evs1 [Hw1 [Hp1 Ho1]]].
    specialize (IH w1 Hnd').
    destruct (transfer_entries id send ks w1) as [[u' | e' | m'] w2]; [| exact I | exact I].
    destruct IH as [evs2 [Hw2 [Hp2 Ho2]]].
    exists (evs1 ++ evs2). split; [rewrite Hw2, Hw1, app_assoc; reflexivity |].
    split.
    + rewrite preambles_of_app, Hp1, Hp2. f_equal.
      apply flat_map_ext_in. intros x Hx. rewrite Ho1; [reflexivity |].
      intros ->. contradiction.
    + intros k' Hk'. simpl in Hk'.
      rewrite Ho2 by tauto. apply Ho1. intros ->. tauto.
Qed.

Lemma keys_lookup_entries (send : bool) (es : list (Z * AllowSlice)) :
  NoDup (map fst es) ->
  flat_map (fun k => entry_preambles send k (entries_get k es)) (map fst es) =
  map (fun e => AllowedRegionPreamble_new (fst e) (AllowSlice_len (snd e)))
      (filter (fun e => negb send || valid (snd e)) es).
Proof.
  induction es as [| [k v] rest IH]; simpl; intros Hnd; auto.
  inversion Hnd as [| ? ? Hnin Hnd']; subst.
  rewrite Z.eqb_refl.
  rewrite (flat_map_ext_in _ (fun k0 => entry_preambles send k0 (entries_get k0 rest))).
  2:{ intros x Hx. destruct (Z.eqb k x) eqn:E; [| reflexivity].
      apply Z.eqb_eq in E. subst. contradiction. }
  rewrite IH by exact Hnd'.
  unfold entry_preambles.
  destruct send, (valid v); simpl; reflexivity.
Qed.

(** C5 (as the code does it): in every allow-region transfer that runs to
    its end, the preambles sent are the map's entries in the map's
    iteration order (bucket order, set by the keys' hashes), only the
    [valid] ones when sending and all of them when receiving, each with
    its key and its buffer's length, then the null terminator; with no
    null key in the map (which [allow] never inserts) the terminator is
    the only null preamble. *)
Theorem transfer_allow_region_preambles (send : bool) (w : World) :
  NoDup (HashMap_keys (allow_map w)) ->
  fst (transfer_allow_region send w) = Ok tt ->
  exists evs,
    wire (snd (transfer_allow_region send w)) = wire w ++ evs /\
    preambles_of evs =
      map (fun e => AllowedRegionPreamble_new (fst e) (AllowSlice_len (snd e)))
          (filter (fun e => negb send || valid (snd e)) (hm_entries (allow_map w)))
      ++ [AllowedRegionPreamble_new_null] /\
    (Forall (fun k => k <> 0) (HashMap_keys (allow_map w)) ->
     ~ In AllowedRegionPreamble_new_null
         (map (fun e => AllowedRegionPreamble_new (fst e) (AllowSlice_len (snd e)))
              (filter (fun e => negb send || valid (snd e)) (hm_entries (allow_map w))))).
Proof.
  intros Hnd Hok.
  unfold transfer_allow_region, bind, get in *. simpl in *.
  pose proof (transfer_entries_spec (proc_id w) send (HashMap_keys (allow_map w)) w Hnd) as H.
  destruct (transfer_entries (proc_id w) send (HashMap_keys (allow_map w)) w)
    as [[u | e | m] w1]; [| discriminate Hok | discriminate Hok].
  destruct H as [evs [Hw [Hp _]]].
  unfold send_preamble, tx_send, bind, get, modify, fail in *. simpl in *.
  destruct (tx_connected w1); [| discriminate Hok]. simpl.
  exists (evs ++ [TxPreamble AllowedRegionPreamble_new_null]).
  split; [rewrite Hw, app_assoc; reflexivity |].
  split.
  - rewrite preambles_of_app, Hp. simpl. f_equal.
    apply keys_lookup_entries. exact Hnd.
  - intros Hk Hin. apply in_map_iff in Hin.
    destruct Hin as [[k s] [Heq Hf]]. apply filter_In in Hf.
    destruct Hf as [Hf _].
    unfold AllowedRegionPreamble_new, AllowedRegionPreamble_new_null in Heq.
    injection Heq as Hk0 _. simpl in Hk0.
    rewrite Forall_forall in Hk. apply (Hk k); [| exact Hk0].
    unfold HashMap_keys. apply in_map_iff. exists (k, s). auto.
Qed.

End TransferProps.

(** ** ALLOW translation in [switch_to_process] *)

Module AllowTranslation.

(** An app, not yet started, whose first frame is
    [ALLOW { driver 2, subdriver 0, address 0, size 4 }]. *)
Definition world_null_allow : World :=
  mkWorld [[3; 0; 0; 0; 0; 0; 0; 0] ++ [2; 0; 0; 0; 0; 0; 0; 0] ++ repeat 0 16
           ++ [4; 0; 0; 0; 0; 0; 0; 0]]
    false true [] 7 false (HashMap_new (fun k => k)) 4096.

(** C7 (counterexample): for an ALLOW of the null app address the
    syscall handed to the kernel carries the app's own address, 0. *)
Lemma null_allow_keeps_app_address :
  fst (fst (switch_to_process HostStoredState_new world_null_allow))
    = SyscallFired (ALLOW 2 0 0 4).
Proof. vm_compute. reflexivity. Qed.

(** C7 (as the code does it): whenever [switch_to_process] returns
    [SyscallFired] with an ALLOW, its address is what [process.allow]
    returned for the app's address and size in the frame: null for a null
    app address, otherwise the pointer of the fresh zero-filled buffer the
    allow map now holds, not yet valid, under the app's address. *)
Theorem switch_to_process_allow_translated (st : HostStoredState) (w : World) :
  match switch_to_process st w with
  | (SyscallFired (ALLOW d sd a sz), _, w3) =>
      exists rv w1 frame w2 a0,
        start_if_needed st w = (Ok rv, w1) /\
        unyield rv w1 = (Ok frame, w2) /\
        arguments_to_syscall (syscall_number frame mod 256) (nth_arg frame 0)
          (nth_arg frame 1) (nth_arg frame 2) (nth_arg frame 3)
          = Some (ALLOW d sd a0 sz) /\
        allow a0 sz w2 = (Ok a, w3) /\
        (if Z.eqb a0 0 then a = 0
         else HashMap_get a0 (allow_map w3) =
                Some (mkAllowSlice a (repeat 0 (Z.to_nat sz)) false))
  | _ => True
  end.
Proof.
  unfold switch_to_process.
  destruct (process st); [| exact I].
  unfold bind.
  destruct (start_if_needed st w) as [[rv | e | m] w1] eqn:E1; [| exact I | exact I].
  destruct (unyield rv w1) as [[frame | e | m] w2] eqn:E2; [| exact I | exact I].
  unfold decode_and_translate.
  destruct (arguments_to_syscall _ _ _ _ _) as [sc |] eqn:E3; [| exact I].
  destruct sc as [| | | d sd a0 sz |]; try exact I.
  unfold bind, ret.
  destruct (allow a0 sz w2) as [[a | e | m] w3] eqn:E4; [| exact I | exact I].
  exists rv, w1, frame, w2, a0.
  split; [reflexivity |]. split; [exact E2 |]. split; [exact E3 |].
  split; [exact E4 |].
  pose proof (allow_result a0 sz w2) as Ha.
  destruct (Z.eqb a0 0) eqn:E0.
  - rewrite E4 in Ha. injection Ha as Ha _. apply Z.eqb_eq in E0. congruence.
  - destruct (Z.ltb isize_max sz); [congruence |].
    destruct Ha as [ptr [w' [Ha [Hg _]]]].
    rewrite E4 in Ha. injection Ha as -> ->. exact Hg.
Qed.

End AllowTranslation.

(** ** Iteration order of the allow map *)

Module IterationOrder.
Import TransferProps.

(** Allow 0x2000 and then 0x1000 (four bytes each) on an empty map whose
    hasher puts 0x1000 in an earlier bucket, then receive both regions. *)
Definition allow_twice_then_receive : M unit :=
  allow 8192 4 ;; allow 4096 4 ;; transfer_allow_region false.

Definition world_two_regions : World :=
  mkWorld [[1; 2; 3; 4]; [5; 6; 7; 8]] true true [] 7 true
    (HashMap_new (fun k => k)) 65536.

(** The same map once both regions are allowed. *)
Definition world_after_allows : World :=
  snd ((allow 8192 4 ;; allow 4096 4) world_two_regions).

(** C5 (counterexample): the preambles follow the map's buckets, not the
    order the regions were allowed in. *)
Lemma preambles_not_in_insertion_order :
  preambles_of (wire (snd (allow_twice_then_receive world_two_regions))) =
    [AllowedRegionPreamble_new 4096 4; AllowedRegionPreamble_new 8192 4;
     AllowedRegionPreamble_new_null] /\
  preambles_of (wire (snd (allow_twice_then_receive world_two_regions))) <>
    [AllowedRegionPreamble_new 8192 4; AllowedRegionPreamble_new 4096 4;
     AllowedRegionPreamble_new_null].
Proof. vm_compute. split; [reflexivity | congruence]. Qed.

Lemma transfer_allow_region_preambles_witness :
  NoDup (HashMap_keys (allow_map world_after_allows)) /\
  fst (transfer_allow_region false world_after_allows) = Ok tt /\
  exists evs,
    wire (snd (transfer_allow_region false world_after_allows))
      = wire world_after_allows ++ evs.
Proof.
  assert (Hnd : NoDup (HashMap_keys (allow_map world_after_allows))).
  { vm_compute. apply NoDup_cons; [simpl; lia |].
    apply NoDup_cons; [simpl; tauto | apply NoDup_nil]. }
  assert (Hok : fst (transfer_allow_region false world_after_allows) = Ok tt).
  { vm_compute. reflexivity. }
  split; [exact Hnd |]. split; [exact Hok |].
  destruct (transfer_allow_region_preambles false world_after_allows Hnd Hok)
    as [evs [Hw _]].
  exists evs. exact Hw.
Defined.

End IterationOrder.

(* ================================================================== *)
(** * Further properties of the boundary driver *)

(** ** What a computation adds to the wire log *)

Module WireLog.

Definition not_kernel_return (e : wire_event) : Prop :=
  match e with TxKernelReturn _ => False | _ => True end.

(** A frame that is neither a [KernelReturn] nor the spawn of the child. *)
Definition not_return_nor_spawn (e : wire_event) : Prop :=
  match e with TxKernelReturn _ | SpawnChild _ => False | _ => True end.

Lemma not_return_nor_spawn_not_kernel_return (evs : list wire_event) :
  Forall not_return_nor_spawn evs -> Forall not_kernel_return evs.
Proof. apply Forall_impl. intros [] H; simpl in *; tauto. Qed.

(** [r] is the outcome of running from [w]: the wire log only grew, by
    frames satisfying [P]. *)
Definition grows_at (P : wire_event -> Prop) {A} (w : World) (r : result A * World) : Prop :=
  exists evs, wire (snd r) = wire w ++ evs /\ Forall P evs.

Definition grows (P : wire_event -> Prop) {A} (m : M A) : Prop :=
  forall w, grows_at P w (m w).

Lemma grows_at_same P {A} (w : World) (a : result A) (w' : World) :
  wire w' = wire w -> grows_at P w (a, w').
Proof. intros H. exists []. rewrite app_nil_r. split; [exact H | constructor]. Qed.

Lemma grows_ret P {A} (a : A) : grows P (ret a).
Proof. intros w. now apply grows_at_same. Qed.

Lemma grows_fail P {A} (e : EmulationError) : grows P (@fail A e).
Proof. intros w. now apply grows_at_same. Qed.

Lemma grows_panic P {A} (msg : String.string) : grows P (@panic A msg).
Proof. intros w. now apply grows_at_same. Qed.

Lemma grows_bind P {A B} (m : M A) (k : A -> M B) :
  grows P m -> (forall a, grows P (k a)) -> grows P (bind m k).
Proof.
  intros Hm Hk w. unfold bind.
  destruct (Hm w) as [evs1 [H1 F1]].
  destruct (m w) as [[a | e | msg] w1]; simpl in *.
  - destruct (Hk a w1) as [evs2 [H2 F2]].
    exists (evs1 ++ evs2). split; [rewrite H2, H1, app_assoc; reflexivity |].
    now apply Forall_app.
  - exists evs1. auto.
  - exists evs1. auto.
Qed.

Lemma grows_get_bind P {A} (k : World -> M A) :
  (forall w, grows_at P w (k w w)) -> grows P (bind get k).
Proof. intros H w. exact (H w). Qed.

Lemma grows_tx_connect_if_needed P : grows P tx_connect_if_needed.
Proof.
  apply grows_get_bind. intros w.
  destruct (tx_connected w); apply grows_at_same; reflexivity.
Qed.

Lemma grows_tx_send P (e : wire_event) : P e -> grows P (tx_send e).
Proof.
  intros He. apply grows_get_bind. intros w.
  destruct (tx_connected w); [| now apply grows_at_same].
  exists [e]. split; [reflexivity | now constructor].
Qed.

Lemma grows_rx_recv (buf : list Z) : grows not_return_nor_spawn (rx_recv buf).
Proof.
  apply grows_get_bind. intros w. unfold bind, put, ret, fail.
  destruct (inbox w) as [| d rest]; [now apply grows_at_same |].
  exists [RxDatagram d]. split; [reflexivity | repeat constructor].
Qed.

Lemma grows_recv_syscall (buf : list Z) : grows not_return_nor_spawn (recv_syscall buf).
Proof.
  unfold recv_syscall. apply grows_bind; [apply grows_rx_recv |].
  intros [buf' n]. destruct (layout_verified_syscall buf');
    [apply grows_ret | apply grows_fail].
Qed.

Lemma grows_allow (a len : Z) : grows not_return_nor_spawn (allow a len).
Proof.
  unfold allow. destruct (Z.eqb a 0); [apply grows_ret |].
  apply grows_bind.
  - unfold alloc_zeroed. apply grows_get_bind. intros w.
    destruct (Z.ltb isize_max len); [exact (grows_panic _ _ w) |].
    destruct (Z.eqb len 0); [now apply grows_at_same |].
    unfold bind, modify, ret. now apply grows_at_same.
  - intros [ptr data]. apply grows_get_bind. intros w.
    unfold bind, put, ret. now apply grows_at_same.
Qed.

Lemma grows_apply P {A} (m : M A) (w : World) : grows P m -> grows_at P w (m w).
Proof. intros H. exact (H w). Qed.

Lemma grows_at_put_bind P {A} (w w' : World) (k : M A) :
  wire w' = wire w -> grows P k -> grows_at P w ((put w' ;; k) w).
Proof.
  intros Hw Hk. destruct (Hk w') as [evs [He F]].
  exists evs. unfold bind, put. rewrite He, Hw. auto.
Qed.

Lemma grows_transfer_one (id : nat) (send : bool) (k : Z) :
  grows not_return_nor_spawn (transfer_one id send k).
Proof.
  unfold transfer_one. apply grows_get_bind. intros w.
  destruct (HashMap_get k (allow_map w)) as [s |]; [| now apply grows_at_same].
  destruct (send && negb (valid s)); [now apply grows_at_same |].
  apply grows_apply.
  apply grows_bind; [apply grows_tx_send; exact I |]. intros _.
  destruct send; [apply grows_tx_send; exact I |].
  apply grows_bind; [apply grows_rx_recv |]. intros [buf' n].
  apply grows_get_bind. intros w1.
  apply grows_at_put_bind; [reflexivity |].
  apply grows_bind.
  - unfold recv_bytes_check. destruct (Nat.eqb _ _); [apply grows_ret | apply grows_fail].
  - intros _. apply grows_get_bind. intros w2. now apply grows_at_same.
Qed.

Lemma grows_transfer_allow_region (send : bool) :
  grows not_return_nor_spawn (transfer_allow_region send).
Proof.
  unfold transfer_allow_region. apply grows_get_bind. intros w.
  apply grows_apply.
  apply grows_bind; [| intros _; apply grows_tx_send; exact I].
  induction (HashMap_keys (allow_map w)) as [| k ks IH]; simpl; [apply grows_ret |].
  apply grows_bind; [apply grows_transfer_one | intros _; exact IH].
Qed.

Lemma grows_decode_and_translate (f : Syscall_frame) :
  grows not_return_nor_spawn (decode_and_translate f).
Proof.
  unfold decode_and_translate.
  destruct (arguments_to_syscall _ _ _ _ _) as [s |]; [| apply grows_ret].
  destruct s; try apply grows_ret.
  apply grows_bind; [apply grows_allow | intros; apply grows_ret].
Qed.

(** The part of [unyield] after the [KernelReturn] exchange. *)
Lemma grows_unyield_none : grows not_return_nor_spawn (unyield None).
Proof.
  unfold unyield. apply grows_bind; [apply grows_ret |]. intros _.
  apply grows_bind; [apply grows_recv_syscall |]. intros s.
  apply grows_bind; [apply grows_tx_connect_if_needed |]. intros _.
  apply grows_bind; [apply grows_transfer_allow_region | intros _; apply grows_ret].
Qed.

End WireLog.

(** ** The frames one [switch_to_process] sends *)

Module SwitchProps.
Import WireLog.

Definition connected_world (w : World) : World :=
  if tx_connected w then w else set_connected w.

Lemma unyield_some_eq (r : KernelReturn) (w : World) :
  unyield (Some r) w =
  bind (transfer_allow_region false) (fun _ => unyield None)
    (log (TxKernelReturn r) (connected_world w)).
Proof.
  unfold connected_world, unyield, tx_connect_if_needed, send_kernel_return, tx_send,
    bind, get, ret, modify, fail.
  destruct (tx_connected w) eqn:E; simpl; rewrite ?E; reflexivity.
Qed.

Lemma bind_ok {A B} (m : M A) (k : A -> M B) (w w1 : World) (a : A) :
  m w = (Ok a, w1) -> bind m k w = k a w1.
Proof. intros H. unfold bind. now rewrite H. Qed.

Lemma wire_connected_world (w : World) : wire (connected_world w) = wire w.
Proof. unfold connected_world. destruct (tx_connected w); reflexivity. Qed.

(** The world [switch_to_process] leaves is the one its computation
    leaves, whether that computation failed or not. *)
Definition switch_body (st : HostStoredState) : M ContextSwitchReason :=
  return_value <- start_if_needed st ;;
  syscall_args <- unyield return_value ;;
  decode_and_translate syscall_args.

Lemma switch_world (st : HostStoredState) (w : World) (p : ProcessRef) :
  process st = Some p -> snd (switch_to_process st w) = snd (switch_body st w).
Proof.
  intros Hp. unfold switch_to_process. rewrite Hp. fold (switch_body st).
  destruct (switch_body st w) as [[r | e | msg] w']; reflexivity.
Qed.

Lemma switch_started_wire_core (st : HostStoredState) (w : World) (p : ProcessRef) :
  process st = Some p -> proc_started w = true ->
  exists evs, wire (snd (switch_to_process st w)) =
              wire w ++ TxKernelReturn (syscall_ret st) :: evs /\
              Forall not_kernel_return evs.
Proof.
  intros Hp Hs. rewrite (switch_world st w p Hp). unfold switch_body.
  rewrite (bind_ok (start_if_needed st) _ w w (Some (syscall_ret st))).
  2:{ unfold start_if_needed, bind, get, ret. now rewrite Hs. }
  set (w2 := log (TxKernelReturn (syscall_ret st)) (connected_world w)).
  assert (Hu : bind (unyield (Some (syscall_ret st))) (fun x => decode_and_translate x) w =
               bind (bind (transfer_allow_region false) (fun _ => unyield None))
                    decode_and_translate w2).
  { unfold bind at 1. rewrite unyield_some_eq. reflexivity. }
  cbv beta. rewrite Hu.
  assert (G : grows not_return_nor_spawn
     (bind (bind (transfer_allow_region false) (fun _ => unyield None))
           decode_and_translate)).
  { apply grows_bind; [apply grows_bind |].
    - apply grows_transfer_allow_region.
    - intros _. apply grows_unyield_none.
    - intros f. apply grows_decode_and_translate. }
  destruct (G w2) as [evs [He F]].
  exists evs. split; [| exact (not_return_nor_spawn_not_kernel_return evs F)].
  rewrite He. unfold w2, log. simpl. rewrite wire_connected_world, <- app_assoc. reflexivity.
Qed.

(** Once the app is running, a switch to it sends exactly one
    [KernelReturn], the one the stored state holds, before any other
    frame, and no other [KernelReturn] after it. *)
Theorem switch_started_sends_stored_return (st : HostStoredState) (w : World) :
  process st = Some tt -> proc_started w = true ->
  exists evs, wire (snd (switch_to_process st w)) =
              wire w ++ TxKernelReturn (syscall_ret st) :: evs /\
              Forall not_kernel_return evs.
Proof. intros Hp Hs. exact (switch_started_wire_core st w tt Hp Hs). Qed.

Lemma switch_started_sends_stored_return_witness :
  process HostStoredState_new = Some tt /\
  proc_started world_one_valid_slice = true /\
  exists evs, wire (snd (switch_to_process HostStoredState_new world_one_valid_slice)) =
              wire world_one_valid_slice ++ TxKernelReturn KernelReturn_default :: evs.
Proof.
  split; [reflexivity |]. split; [reflexivity |].
  destruct (switch_started_sends_stored_return HostStoredState_new world_one_valid_slice
              eq_refl eq_refl) as [evs [H _]].
  exists evs. exact H.
Defined.

(** What the scheduler stores reaches the app: after
    [set_syscall_return_value v] the next switch to a running app sends
    [{ret_val = v, cb = {pc = 0, args = 0}}]; after [set_process_function]
    it sends [{ret_val = 0, cb = {pc, args}}]. *)
Theorem stored_return_reaches_app (st : HostStoredState) (w : World) (v pc a0 a1 a2 a3 : Z) :
  process st = Some tt -> proc_started w = true ->
  (exists evs, wire (snd (switch_to_process (set_syscall_return_value st v) w)) =
     wire w ++ TxKernelReturn (mkKernelReturn v (mkCallback 0 [0; 0; 0; 0])) :: evs) /\
  (exists evs, wire (snd (switch_to_process (set_process_function st pc a0 a1 a2 a3) w)) =
     wire w ++ TxKernelReturn (mkKernelReturn 0 (mkCallback pc [a0; a1; a2; a3])) :: evs).
Proof.
  intros Hp Hs. split.
  - destruct (switch_started_wire_core (set_syscall_return_value st v) w tt Hp Hs)
      as [evs [H _]].
    exists evs. exact H.
  - destruct (switch_started_wire_core (set_process_function st pc a0 a1 a2 a3) w tt Hp Hs)
      as [evs [H _]].
    exists evs. exact H.
Qed.

Lemma stored_return_reaches_app_witness :
  process HostStoredState_new = Some tt /\
  proc_started world_one_valid_slice = true /\
  exists evs,
    wire (snd (switch_to_process (set_process_function HostStoredState_new 4096 1 2 3 4)
                 world_one_valid_slice)) =
    wire world_one_valid_slice ++
      TxKernelReturn (mkKernelReturn 0 (mkCallback 4096 [1; 2; 3; 4])) :: evs.
Proof.
  split; [reflexivity |]. split; [reflexivity |].
  exact (proj2 (stored_return_reaches_app HostStoredState_new world_one_valid_slice
                  0 4096 1 2 3 4 eq_refl eq_refl)).
Defined.

(** The first switch to an app starts it: if spawning fails the switch
    faults and nothing else happens; otherwise the child is spawned, and
    after the spawn the switch neither spawns again nor sends any
    [KernelReturn] (the app's first syscall is awaited without one). *)
Theorem first_switch_spawns (st : HostStoredState) (w : World) :
  process st = Some tt -> proc_started w = false ->
  (spawn_ok w = false -> switch_to_process st w = (Fault, st, w)) /\
  (spawn_ok w = true ->
   exists evs, wire (snd (switch_to_process st w)) =
               wire w ++ SpawnChild (proc_id w) :: evs /\
               Forall not_return_nor_spawn evs).
Proof.
  intros Hp Hs. split.
  - intros Hk. unfold switch_to_process. rewrite Hp.
    unfold start_if_needed, start, bind, get, ret, fail. rewrite Hs, Hk. reflexivity.
  - intros Hk. rewrite (switch_world st w tt Hp). unfold switch_body.
    set (w1 := set_started (log (SpawnChild (proc_id w)) w)).
    rewrite (bind_ok (start_if_needed st) _ w w1 None).
    2:{ unfold start_if_needed, start, bind, get, ret, put. now rewrite Hs, Hk. }
    assert (G : grows not_return_nor_spawn
                  (bind (unyield None) (fun x => decode_and_translate x))).
    { apply grows_bind; [apply grows_unyield_none | intros; apply grows_decode_and_translate]. }
    destruct (G w1) as [evs [He F]].
    exists evs. split; [| exact F].
    rewrite He. unfold w1, log. simpl. rewrite <- app_assoc. reflexivity.
Qed.

Lemma first_switch_spawns_witness :
  process HostStoredState_new = Some tt /\
  proc_started world_short_frame = false /\
  spawn_ok world_short_frame = true /\
  exists evs, wire (snd (switch_to_process HostStoredState_new world_short_frame)) =
              wire world_short_frame ++ SpawnChild 7 :: evs.
Proof.
  split; [reflexivity |]. split; [reflexivity |]. split; [reflexivity |].
  destruct (proj2 (first_switch_spawns HostStoredState_new world_short_frame eq_refl eq_refl)
              eq_refl) as [evs [H _]].
  exists evs. exact H.
Defined.

End SwitchProps.

(** ** The wire layer: frames, regions and the helpers they share *)

Module TransportLemmas.

Lemma le_bytes_length (n : nat) (x : Z) : length (le_bytes n x) = n.
Proof. revert x. induction n; intros x; simpl; auto. Qed.

(** Reading back [n] little-endian bytes gives the value written, when it
    fits in [n] bytes. *)
Lemma le_word_le_bytes (n : nat) (x : Z) :
  0 <= x < 256 ^ Z.of_nat n -> le_word (le_bytes n x) = x.
Proof.
  revert x. induction n as [| n IH]; intros x Hx; cbn [le_bytes le_word].
  - simpl in Hx. lia.
  - rewrite Nat2Z.inj_succ, Z.pow_succ_r in Hx by lia.
    rewrite IH.
    + pose proof (Z.div_mod x 256 ltac:(lia)). lia.
    + split; [apply Z.div_pos; lia |]. apply Z.div_lt_upper_bound; lia.
Qed.

Lemma word_at_words (ws : list Z) (i : nat) :
  (i < length ws)%nat ->
  word_at (flat_map (le_bytes usize_bytes) ws) i = le_word (le_bytes usize_bytes (nth i ws 0)).
Proof.
  unfold word_at. revert i. induction ws as [| x rest IH]; intros i Hi; cbn [length] in Hi; [lia |].
  cbn [flat_map].
  destruct i as [| i].
  - cbn [nth]. rewrite Nat.mul_0_l, skipn_O, firstn_app, le_bytes_length, Nat.sub_diag, firstn_O, app_nil_r.
    rewrite firstn_all2; [reflexivity | rewrite le_bytes_length; lia].
  - replace (S i * usize_bytes)%nat with (length (le_bytes usize_bytes x) + i * usize_bytes)%nat
      by (rewrite le_bytes_length; simpl; lia).
    rewrite skipn_app, skipn_all2 by lia. rewrite app_nil_l.
    replace (length (le_bytes usize_bytes x) + i * usize_bytes - length (le_bytes usize_bytes x))%nat
      with (i * usize_bytes)%nat by lia.
    apply IH. lia.
Qed.

Lemma Syscall_as_bytes_length (s : Syscall_frame) :
  length (Syscall_as_bytes s) = (length (syscall_number s :: sc_args s) * usize_bytes)%nat.
Proof.
  unfold Syscall_as_bytes. generalize (syscall_number s :: sc_args s) as l.
  induction l as [| x r IH]; cbn [flat_map length]; auto.
  rewrite length_app, le_bytes_length, IH. reflexivity.
Qed.

(** [Syscall::as_bytes] followed by [LayoutVerified::new] gives the frame
    back, for arguments that fit in a [usize]. *)
Lemma layout_verified_as_bytes (n a0 a1 a2 a3 : Z) :
  Forall (fun x => 0 <= x < usize_modulus) [n; a0; a1; a2; a3] ->
  layout_verified_syscall (Syscall_as_bytes (Syscall_new n a0 a1 a2 a3)) =
    Some (Syscall_new n a0 a1 a2 a3).
Proof.
  intros H. unfold layout_verified_syscall.
  rewrite Syscall_as_bytes_length. simpl (Nat.eqb _ _). cbv iota.
  unfold Syscall_as_bytes, Syscall_new; cbn [syscall_number sc_args].
  assert (R : forall x, 0 <= x < usize_modulus -> le_word (le_bytes usize_bytes x) = x).
  { intros x Hx. apply le_word_le_bytes. unfold usize_modulus in Hx. simpl. lia. }
  inversion H as [| ? ? Hn H1]; subst. inversion H1 as [| ? ? H0 H2]; subst.
  inversion H2 as [| ? ? Ha1 H3]; subst. inversion H3 as [| ? ? Ha2 H4]; subst.
  inversion H4 as [| ? ? Ha3 _]; subst.
  rewrite !word_at_words by (simpl; lia). cbn [nth]. rewrite !R by assumption. reflexivity.
Qed.

(** [recv] on a non-empty inbox: the first datagram is consumed and copied
    into the front of the buffer. *)
Lemma rx_recv_cons (buf : list Z) (w : World) (d : list Z) (rest : list (list Z)) :
  inbox w = d :: rest ->
  rx_recv buf w =
    (Ok (firstn (Nat.min (length d) (length buf)) d ++ skipn (Nat.min (length d) (length buf)) buf,
         Nat.min (length d) (length buf)),
     log (RxDatagram d) (set_inbox rest w)).
Proof. intros H. unfold rx_recv, bind, get, put, ret. cbv beta iota. rewrite H. reflexivity. Qed.

Lemma rx_recv_nil (buf : list Z) (w : World) :
  inbox w = [] -> rx_recv buf w = (Err IoError, w).
Proof. intros H. unfold rx_recv, bind, get, fail. cbv beta iota. rewrite H. reflexivity. Qed.

(** The buffer [recv_syscall] decodes after one datagram [d]: the bytes of
    [d] that fit, over the zeroed buffer. *)
Definition padded_frame (d : list Z) : list Z :=
  firstn size_of_Syscall d ++ skipn (length d) (repeat 0 size_of_Syscall).




Lemma entries_get_update_same (k : Z) f es :
  entries_get k (entries_update k f es) = option_map f (entries_get k es).
Proof.
  induction es as [| [k' v] rest IH]; simpl; auto.
  destruct (Z.eqb k' k) eqn:E; simpl; rewrite ?E; auto.
Qed.

Lemma entries_get_in_keys (k : Z) (s : AllowSlice) es :
  entries_get k es = Some s -> In k (map fst es).
Proof.
  induction es as [| [k' v] rest IH]; simpl; [discriminate |].
  destruct (Z.eqb k' k) eqn:E; [apply Z.eqb_eq in E; auto | auto].
Qed.

Lemma HashMap_get_update_same (k : Z) f (m : HashMap) :
  HashMap_get k (HashMap_update k f m) = option_map f (HashMap_get k m).
Proof. apply entries_get_update_same. Qed.

Lemma HashMap_get_update_other (k k0 : Z) f (m : HashMap) :
  k0 <> k -> HashMap_get k0 (HashMap_update k f m) = HashMap_get k0 m.
Proof. apply entries_get_update_other. Qed.

Lemma HashMap_keys_update (k : Z) f (m : HashMap) :
  HashMap_keys (HashMap_update k f m) = HashMap_keys m.
Proof. apply entries_update_keys. Qed.

End TransportLemmas.

Module FrameProps.
Import TransportLemmas.

Definition sample_world (ib : list (list Z)) (m : HashMap) : World :=
  mkWorld ib true true [] 7 true m 4096.

(** [recv_syscall] with a datagram queued consumes exactly that datagram,
    whatever its length, and decodes the five words of the 40-byte buffer
    it leaves: the datagram's bytes, cut at 40 or padded with the buffer's
    zeros. *)
Theorem recv_syscall_consumes_one_datagram (w : World) (d : list Z) (rest : list (list Z)) :
  inbox w = d :: rest ->
  recv_syscall (repeat 0 size_of_Syscall) w =
    (Ok (mkSyscall_frame (word_at (padded_frame d) 0)
           [word_at (padded_frame d) 1; word_at (padded_frame d) 2;
            word_at (padded_frame d) 3; word_at (padded_frame d) 4]),
     log (RxDatagram d) (set_inbox rest w)).
Proof.
  intros H. unfold recv_syscall, bind at 1. rewrite (rx_recv_cons _ _ _ _ H).
  rewrite repeat_length.
  assert (Hp : firstn (Nat.min (length d) size_of_Syscall) d ++
               skipn (Nat.min (length d) size_of_Syscall) (repeat 0 size_of_Syscall)
               = padded_frame d).
  { unfold padded_frame. destruct (Nat.le_ge_cases (length d) size_of_Syscall) as [L | L].
    - rewrite Nat.min_l by exact L. rewrite firstn_all, firstn_all2 by exact L. reflexivity.
    - rewrite Nat.min_r by exact L. rewrite skipn_all2 by (rewrite repeat_length; lia).
      rewrite (skipn_all2 (repeat 0 size_of_Syscall)) by (rewrite repeat_length; lia).
      reflexivity. }
  rewrite Hp. unfold layout_verified_syscall.
  assert (Hl : length (padded_frame d) = size_of_Syscall).
  { unfold padded_frame. rewrite length_app, length_firstn, length_skipn, repeat_length. lia. }
  rewrite Hl, Nat.eqb_refl. reflexivity.
Qed.

Lemma recv_syscall_consumes_one_datagram_witness :
  inbox (sample_world [[1; 0; 0; 0; 0; 0; 0; 0; 5]; [2]] (HashMap_new (fun k => k))) =
    [1; 0; 0; 0; 0; 0; 0; 0; 5] :: [[2]] /\
  fst (recv_syscall (repeat 0 size_of_Syscall)
         (sample_world [[1; 0; 0; 0; 0; 0; 0; 0; 5]; [2]] (HashMap_new (fun k => k)))) =
    Ok (mkSyscall_frame 1 [5; 0; 0; 0]).
Proof.
  split; [reflexivity |].
  rewrite (recv_syscall_consumes_one_datagram
             (sample_world [[1; 0; 0; 0; 0; 0; 0; 0; 5]; [2]] (HashMap_new (fun k => k)))
             [1; 0; 0; 0; 0; 0; 0; 0; 5] [[2]] eq_refl).
  vm_compute. reflexivity.
Defined.

(** Round trip of the frame layout: a datagram holding [Syscall::as_bytes]
    of a frame whose words fit in a [usize] is received as that same frame. *)
Theorem recv_syscall_round_trip (w : World) (rest : list (list Z)) (n a0 a1 a2 a3 : Z) :
  Forall (fun x => 0 <= x < usize_modulus) [n; a0; a1; a2; a3] ->
  inbox w = Syscall_as_bytes (Syscall_new n a0 a1 a2 a3) :: rest ->
  recv_syscall (repeat 0 size_of_Syscall) w =
    (Ok (Syscall_new n a0 a1 a2 a3),
     log (RxDatagram (Syscall_as_bytes (Syscall_new n a0 a1 a2 a3))) (set_inbox rest w)).
Proof.
  intros Hr H. unfold recv_syscall, bind at 1. rewrite (rx_recv_cons _ _ _ _ H).
  assert (L : length (Syscall_as_bytes (Syscall_new n a0 a1 a2 a3)) = size_of_Syscall)
    by (rewrite Syscall_as_bytes_length; reflexivity).
  rewrite repeat_length, L, Nat.min_id, firstn_all2 by (rewrite L; lia).
  rewrite skipn_all2 by (rewrite repeat_length; lia). rewrite app_nil_r.
  rewrite (layout_verified_as_bytes _ _ _ _ _ Hr). reflexivity.
Qed.

Lemma recv_syscall_round_trip_witness :
  Forall (fun x => 0 <= x < usize_modulus) [3; 1; 2; 4096; 16] /\
  recv_syscall (repeat 0 size_of_Syscall)
    (sample_world [Syscall_as_bytes (Syscall_new 3 1 2 4096 16)] (HashMap_new (fun k => k))) =
    (Ok (Syscall_new 3 1 2 4096 16),
     log (RxDatagram (Syscall_as_bytes (Syscall_new 3 1 2 4096 16)))
       (set_inbox [] (sample_world [Syscall_as_bytes (Syscall_new 3 1 2 4096 16)]
                        (HashMap_new (fun k => k))))).
Proof.
  assert (H : Forall (fun x => 0 <= x < usize_modulus) [3; 1; 2; 4096; 16])
    by (repeat constructor; unfold usize_modulus; lia).
  split; [exact H |].
  apply recv_syscall_round_trip; [exact H | reflexivity].
Defined.

End FrameProps.

Module RegionTransfer.
Import TransportLemmas.

Lemma transfer_one_disconnected (id : nat) (send : bool) (k : Z) (w : World) :
  tx_connected w = false ->
  transfer_one id send k w = (Ok tt, w) \/ transfer_one id send k w = (Err IoError, w).
Proof.
  intros H. unfold transfer_one, send_preamble, tx_send, bind, get, ret, fail, modify.
  cbv beta iota.
  destruct (HashMap_get k (allow_map w)) as [s |]; [| now left].
  destruct (send && negb (valid s)); [now left |].
  cbv beta iota. rewrite H. now right.
Qed.

Lemma transfer_entries_disconnected (id : nat) (send : bool) (ks : list Z) (w : World) :
  tx_connected w = false ->
  transfer_entries id send ks w = (Ok tt, w) \/ transfer_entries id send ks w = (Err IoError, w).
Proof.
  intros H. induction ks as [| k rest IH]; simpl; [now left |].
  unfold bind.
  destruct (transfer_one_disconnected id send k w H) as [E | E]; rewrite E; cbv beta iota; auto.
Qed.

(** With the transmit socket not connected, [transfer_allow_region] (in
    either direction) fails with an I/O error and leaves the world,
    including the wire log and the allow map, unchanged. *)
Theorem transfer_allow_region_disconnected (send : bool) (w : World) :
  tx_connected w = false -> transfer_allow_region send w = (Err IoError, w).
Proof.
  intros H. unfold transfer_allow_region, bind at 1, get. cbv beta iota.
  unfold bind.
  destruct (transfer_entries_disconnected (proc_id w) send (HashMap_keys (allow_map w)) w H)
    as [E | E]; rewrite E; [| reflexivity].
  unfold send_preamble, tx_send, bind, get, fail. cbv beta iota. now rewrite H.
Qed.

Lemma transfer_allow_region_disconnected_witness :
  tx_connected (mkWorld [] false true [] 7 true (HashMap_new (fun k => k)) 4096) = false /\
  transfer_allow_region true (mkWorld [] false true [] 7 true (HashMap_new (fun k => k)) 4096) =
    (Err IoError, mkWorld [] false true [] 7 true (HashMap_new (fun k => k)) 4096).
Proof.
  split; [reflexivity |].
  apply transfer_allow_region_disconnected. reflexivity.
Defined.








(** One region received: the preamble goes out, one datagram is read into
    the region, and the region is validated only if it filled it. *)
Lemma transfer_one_receive_eq (id : nat) (k : Z) (w : World) (s : AllowSlice)
    (d : list Z) (rest : list (list Z)) :
  tx_connected w = true -> HashMap_get k (allow_map w) = Some s -> inbox w = d :: rest ->
  let n := Nat.min (length d) (length (slice s)) in
  let buf' := firstn n d ++ skipn n (slice s) in
  let w1 := log (RxDatagram d)
              (set_inbox rest (log (TxPreamble (AllowedRegionPreamble_new k (AllowSlice_len s))) w)) in
  let w2 := set_allow_map
              (HashMap_update k (fun v => mkAllowSlice (slice_ptr v) buf' (valid v)) (allow_map w1)) w1 in
  transfer_one id false k w =
    if Nat.eqb n (length (slice s))
    then (Ok tt, set_allow_map (HashMap_update k AllowSlice_validate (allow_map w2)) w2)
    else (Err (PartialMessage (length (slice s)) n), w2).
Proof.
  intros Hc Hg Hi n buf' w1 w2.
  unfold transfer_one, send_preamble, tx_send, recv_bytes_check, bind, get, ret, put, modify, fail.
  cbv beta iota. rewrite Hg. cbn [andb negb]. cbv beta iota. rewrite Hc.
  cbv beta iota.
  rewrite (rx_recv_cons _ _ d rest) by exact Hi. cbv beta iota zeta.
  unfold recv_bytes_check. fold n.
  destruct (Nat.eqb n (length (slice s))); reflexivity.
Qed.

(** Receiving one region consumes exactly one datagram and touches only that
    region; a datagram at least as long as the region fills it with its
    first bytes and validates it; a shorter one is copied over the front of
    the region, which keeps its validity, and the transfer reports a partial
    message of the region's and the datagram's lengths. *)
Theorem transfer_one_receive_region (id : nat) (k : Z) (w : World) (s : AllowSlice)
    (d : list Z) (rest : list (list Z)) :
  tx_connected w = true -> HashMap_get k (allow_map w) = Some s -> inbox w = d :: rest ->
  inbox (snd (transfer_one id false k w)) = rest /\
  (forall k0, k0 <> k ->
     HashMap_get k0 (allow_map (snd (transfer_one id false k w))) = HashMap_get k0 (allow_map w)) /\
  ((length (slice s) <= length d)%nat ->
     fst (transfer_one id false k w) = Ok tt /\
     HashMap_get k (allow_map (snd (transfer_one id false k w))) =
       Some (mkAllowSlice (slice_ptr s) (firstn (length (slice s)) d) true)) /\
  ((length d < length (slice s))%nat ->
     fst (transfer_one id false k w) = Err (PartialMessage (length (slice s)) (length d)) /\
     HashMap_get k (allow_map (snd (transfer_one id false k w))) =
       Some (mkAllowSlice (slice_ptr s) (d ++ skipn (length d) (slice s)) (valid s))).
Proof.
  intros Hc Hg Hi.
  rewrite (transfer_one_receive_eq id k w s d rest Hc Hg Hi). cbv zeta.
  destruct (Nat.le_gt_cases (length (slice s)) (length d)) as [L | L].
  - rewrite Nat.min_r by exact L. rewrite Nat.eqb_refl. cbn [fst snd allow_map set_allow_map inbox].
    split; [reflexivity |]. split; [| split].
    + intros k0 Hk. rewrite !HashMap_get_update_other by exact Hk. reflexivity.
    + intros _. split; [reflexivity |].
      rewrite !HashMap_get_update_same. cbn [allow_map log set_inbox]. rewrite Hg. simpl.
      rewrite skipn_all. rewrite app_nil_r. reflexivity.
    + intros L'. lia.
  - rewrite Nat.min_l by lia.
    assert (E : Nat.eqb (length d) (length (slice s)) = false) by (apply Nat.eqb_neq; lia).
    rewrite E. cbn [fst snd allow_map set_allow_map inbox].
    split; [reflexivity |]. split; [| split].
    + intros k0 Hk. rewrite HashMap_get_update_other by exact Hk. reflexivity.
    + intros L'. lia.
    + intros _. split; [reflexivity |].
      rewrite HashMap_get_update_same. cbn [allow_map log set_inbox]. rewrite Hg. simpl.
      rewrite firstn_all. reflexivity.
Qed.

Lemma transfer_one_receive_region_witness :
  tx_connected (FrameProps.sample_world [[5; 6; 7]]
    (mkHashMap (fun k => k) [(4096, mkAllowSlice 8192 [0; 0] false)])) = true /\
  HashMap_get 4096 (allow_map (FrameProps.sample_world [[5; 6; 7]]
    (mkHashMap (fun k => k) [(4096, mkAllowSlice 8192 [0; 0] false)]))) =
    Some (mkAllowSlice 8192 [0; 0] false) /\
  fst (transfer_one 7 false 4096 (FrameProps.sample_world [[5; 6; 7]]
    (mkHashMap (fun k => k) [(4096, mkAllowSlice 8192 [0; 0] false)]))) = Ok tt.
Proof.
  split; [reflexivity | split; [reflexivity |]].
  exact (proj1 (proj1 (proj2 (proj2 (transfer_one_receive_region 7 4096
    (FrameProps.sample_world [[5; 6; 7]]
       (mkHashMap (fun k => k) [(4096, mkAllowSlice 8192 [0; 0] false)]))
    (mkAllowSlice 8192 [0; 0] false) [5; 6; 7] [] eq_refl eq_refl eq_refl)))
    ltac:(cbn; lia))).
Defined.

Lemma transfer_one_receive_ok (id : nat) (k : Z) (w w' : World) :
  transfer_one id false k w = (Ok tt, w') ->
  HashMap_keys (allow_map w') = HashMap_keys (allow_map w) /\
  (forall s, HashMap_get k (allow_map w) = Some s ->
     exists s', HashMap_get k (allow_map w') = Some s' /\ valid s' = true /\
                slice_ptr s' = slice_ptr s /\ length (slice s') = length (slice s)) /\
  (forall k0, k0 <> k -> HashMap_get k0 (allow_map w') = HashMap_get k0 (allow_map w)).
Proof.
  intros Ht.
  destruct (HashMap_get k (allow_map w)) as [s |] eqn:Hg.
  2:{ assert (E : transfer_one id false k w = (Ok tt, w)).
      { unfold transfer_one, bind, get, ret. cbv beta iota. now rewrite Hg. }
      rewrite E in Ht. injection Ht as <-. split; [reflexivity |]. split; [discriminate | auto]. }
  destruct (tx_connected w) eqn:Hc.
  2:{ assert (E : transfer_one id false k w = (Err IoError, w)).
      { unfold transfer_one, send_preamble, tx_send, bind, get, ret, fail, modify.
        cbv beta iota. rewrite Hg. cbn [andb negb]. cbv beta iota. now rewrite Hc. }
      congruence. }
  destruct (inbox w) as [| d rest] eqn:Hi.
  { assert (E : fst (transfer_one id false k w) = Err IoError).
    { unfold transfer_one, send_preamble, tx_send, bind, get, ret, fail, modify.
      cbv beta iota. rewrite Hg. cbn [andb negb]. cbv beta iota. rewrite Hc. cbv beta iota.
      rewrite rx_recv_nil by exact Hi. reflexivity. }
    rewrite Ht in E. discriminate. }
  rewrite (transfer_one_receive_eq id k w s d rest Hc Hg Hi) in Ht. cbv zeta in Ht.
  destruct (Nat.eqb (Nat.min (length d) (length (slice s))) (length (slice s))) eqn:E;
    [| discriminate].
  injection Ht as <-. apply Nat.eqb_eq in E.
  cbn [allow_map set_allow_map log set_inbox].
  split; [| split].
  - rewrite !HashMap_keys_update. reflexivity.
  - intros s0 Hs0. injection Hs0 as <-.
    rewrite !HashMap_get_update_same, Hg. cbn [option_map].
    eexists; split; [reflexivity |]. cbn. split; [reflexivity | split; [reflexivity |]].
    rewrite length_app, length_firstn, length_skipn. lia.
  - intros k0 Hk. rewrite !HashMap_get_update_other by exact Hk. reflexivity.
Qed.

Lemma transfer_entries_receive_ok (id : nat) (ks : list Z) (w w' : World) :
  transfer_entries id false ks w = (Ok tt, w') ->
  HashMap_keys (allow_map w') = HashMap_keys (allow_map w) /\
  (forall k s, In k ks -> HashMap_get k (allow_map w) = Some s ->
     exists s', HashMap_get k (allow_map w') = Some s' /\ valid s' = true /\
                slice_ptr s' = slice_ptr s /\ length (slice s') = length (slice s)) /\
  (forall k, ~ In k ks -> HashMap_get k (allow_map w') = HashMap_get k (allow_map w)).
Proof.
  revert w. induction ks as [| k rest IH]; intros w Ht; simpl in Ht.
  - injection Ht as <-. split; [reflexivity |]. split; [intros ? ? [] | auto].
  - unfold bind in Ht.
    destruct (transfer_one id false k w) as [[[] | e | msg] w1] eqn:E1; [| discriminate | discriminate].
    destruct (transfer_one_receive_ok id k w w1 E1) as [K1 [V1 O1]].
    destruct (IH w1 Ht) as [K2 [V2 O2]].
    split; [congruence | split].
    + intros k0 s Hin Hs.
      destruct (Z.eq_dec k0 k) as [-> | Hne].
      * destruct (V1 s Hs) as [s1 [G1 [B1 [P1 L1]]]].
        destruct (in_dec Z.eq_dec k rest) as [Ir | Nr].
        -- destruct (V2 k s1 Ir G1) as [s2 [G2 [B2 [P2 L2]]]].
           exists s2. repeat split; congruence.
        -- exists s1. rewrite O2 by exact Nr. repeat split; assumption.
      * destruct Hin as [Hk | Hin]; [congruence |].
        apply V2; [exact Hin |]. rewrite O1 by exact Hne. exact Hs.
    + intros k0 Hn. simpl in Hn.
      rewrite O2 by tauto. apply O1. intros ->. tauto.
Qed.

(** A successful receive of the allow regions keeps the set of keys and
    leaves every region valid, at the same pointer and with the same
    length. *)
Theorem transfer_allow_region_receive_validates (w : World) :
  fst (transfer_allow_region false w) = Ok tt ->
  HashMap_keys (allow_map (snd (transfer_allow_region false w))) = HashMap_keys (allow_map w) /\
  (forall k s, HashMap_get k (allow_map w) = Some s ->
     exists s', HashMap_get k (allow_map (snd (transfer_allow_region false w))) = Some s' /\
                valid s' = true /\ slice_ptr s' = slice_ptr s /\
                length (slice s') = length (slice s)).
Proof.
  destruct (transfer_entries (proc_id w) false (HashMap_keys (allow_map w)) w)
    as [[[] | e | msg] w1] eqn:E1.
  - destruct (transfer_entries_receive_ok _ _ _ _ E1) as [K [V _]].
    unfold transfer_allow_region, send_preamble, tx_send, bind, get, modify, fail.
    cbv beta iota. rewrite E1. cbv beta iota.
    destruct (tx_connected w1); [| discriminate].
    intros _. cbn [snd allow_map log]. split; [exact K |].
    intros k s Hs. apply V; [| exact Hs].
    exact (entries_get_in_keys k s _ Hs).
  - unfold transfer_allow_region, bind, get. cbv beta iota. rewrite E1. discriminate.
  - unfold transfer_allow_region, bind, get. cbv beta iota. rewrite E1. discriminate.
Qed.

Lemma transfer_allow_region_receive_validates_witness :
  fst (transfer_allow_region false (FrameProps.sample_world [[5; 6; 7]]
    (mkHashMap (fun k => k) [(4096, mkAllowSlice 8192 [0; 0] false)]))) = Ok tt /\
  HashMap_keys (allow_map (snd (transfer_allow_region false (FrameProps.sample_world [[5; 6; 7]]
    (mkHashMap (fun k => k) [(4096, mkAllowSlice 8192 [0; 0] false)]))))) = [4096].
Proof.
  assert (H : fst (transfer_allow_region false (FrameProps.sample_world [[5; 6; 7]]
    (mkHashMap (fun k => k) [(4096, mkAllowSlice 8192 [0; 0] false)]))) = Ok tt)
    by (vm_compute; reflexivity).
  split; [exact H |].
  exact (proj1 (transfer_allow_region_receive_validates _ H)).
Defined.

End RegionTransfer.

Module AdapterQueue.
Import Adapter.

(** Enqueueing a list of tasks in order. *)
Fixpoint enqueue_all (ts : list Task) (p : EmulatedProcess) : EmulatedProcess :=
  match ts with
  | [] => p
  | t :: rest => enqueue_all rest (snd (enqueue_task t p))
  end.

(** Dequeueing [n] times in a row. *)
Fixpoint dequeue_n (n : nat) (p : EmulatedProcess) : list (option Task) * EmulatedProcess :=
  match n with
  | O => ([], p)
  | S n' =>
      let '(t, p1) := dequeue_task p in
      let '(ts, p2) := dequeue_n n' p1 in (t :: ts, p2)
  end.

Lemma enqueue_all_spec (ts : list Task) (p : EmulatedProcess) (q : list Task) :
  is_active p = true -> tasks p = Some q ->
  state (enqueue_all ts p) = state p /\
  tasks (enqueue_all ts p) = Some (q ++ ts) /\
  work (enqueue_all ts p) = work p + Z.of_nat (length ts).
Proof.
  revert p q. induction ts as [| t rest IH]; intros p q Ha Hq; simpl.
  - rewrite app_nil_r. repeat split; auto. lia.
  - assert (E : snd (enqueue_task t p) = set_tasks (q ++ [t]) (increment_work_external p)).
    { unfold enqueue_task. rewrite Ha. cbn [negb tasks increment_work_external].
      rewrite Hq. reflexivity. }
    rewrite E.
    assert (Ha' : is_active (set_tasks (q ++ [t]) (increment_work_external p)) = true) by exact Ha.
    destruct (IH _ (q ++ [t]) Ha' eq_refl) as [S1 [T1 W1]].
    rewrite S1, T1, W1, <- app_assoc. cbn. repeat split. lia.
Qed.

Lemma dequeue_n_spec (n : nat) (p : EmulatedProcess) (l : list Task) :
  tasks p = Some l -> (n <= length l)%nat ->
  fst (dequeue_n n p) = map Some (firstn n l) /\
  tasks (snd (dequeue_n n p)) = Some (skipn n l) /\
  work (snd (dequeue_n n p)) = work p - Z.of_nat n.
Proof.
  revert p l. induction n as [| n IH]; intros p l Hq Hn; simpl.
  - repeat split; auto. lia.
  - unfold dequeue_task. rewrite Hq.
    destruct l as [| x rest]; simpl in Hn; [lia |].
    destruct (dequeue_n n (decrement_work_external (set_tasks rest p))) as [ts p2] eqn:E.
    destruct (IH (decrement_work_external (set_tasks rest p)) rest eq_refl ltac:(lia))
      as [F1 [T1 W1]].
    rewrite E in F1, T1, W1. cbn [fst snd] in *. rewrite F1, T1, W1.
    cbn [work decrement_work_external set_tasks]. repeat split. lia.
Qed.

Lemma reachable_active (p : EmulatedProcess) :
  reachable p ->
  is_active p = true /\ (exists q, tasks p = Some q) /\ dropped_callback_count p = 0%nat.
Proof.
  induction 1 as [work0 H0 | o p Hr [Ha [[q Hq] Hd]]].
  - split; [reflexivity | split; [eexists; reflexivity | reflexivity]].
  - destruct o as [t | | id | | | |]; cbn [exec_op].
    + unfold enqueue_task. rewrite Ha. cbn [negb tasks increment_work_external]. rewrite Hq.
      cbn. split; [exact Ha | split; [eexists; reflexivity | exact Hd]].
    + unfold dequeue_task. rewrite Hq. destruct q as [| x rest]; cbn.
      * split; [exact Ha | split; [exists []; exact Hq | exact Hd]].
      * split; [exact Ha | split; [eexists; reflexivity | exact Hd]].
    + unfold remove_pending_callbacks. rewrite Hq. cbn.
      split; [exact Ha | split; [eexists; reflexivity | exact Hd]].
    + unfold set_yielded_state. destruct (State_eqb (state p) Running); cbn.
      * split; [reflexivity | split; [exists q; exact Hq | exact Hd]].
      * split; [exact Ha | split; [exists q; exact Hq | exact Hd]].
    + unfold stop. destruct (state p) eqn:S; cbn; rewrite ?S;
        (split; [try reflexivity; exact Ha | split; [exists q; exact Hq | exact Hd]]).
    + unfold resume. destruct (state p) eqn:S; cbn; rewrite ?S;
        (split; [try reflexivity; exact Ha | split; [exists q; exact Hq | exact Hd]]).
    + cbn. split; [reflexivity | split; [exists q; exact Hq | exact Hd]].
Qed.

(** [resume] undoes [stop] for every state except the two stopped ones
    [stop] would leave alone. *)
Theorem resume_after_stop (p : EmulatedProcess) :
  state p <> StoppedRunning -> state p <> StoppedYielded -> resume (stop p) = p.
Proof.
  destruct p as [st q d wk]; cbn [state]; intros H1 H2.
  destruct st; unfold stop, resume, set_state; cbn [state tasks dropped_callback_count work];
    congruence.
Qed.

Lemma resume_after_stop_witness :
  state (set_process_function (create 0)) <> StoppedRunning /\
  state (set_process_function (create 0)) <> StoppedYielded /\
  resume (stop (set_process_function (create 0))) = set_process_function (create 0).
Proof.
  split; [discriminate |]. split; [discriminate |].
  apply resume_after_stop; discriminate.
Defined.

(** The task queue of an active process is first-in first-out: after
    enqueueing [ts] behind the queued [q], dequeueing [length q + length ts]
    times returns [q ++ ts] in order and empties the queue; the kernel work
    counter has gone up by [length ts] and down by as many as were taken. *)
Theorem tasks_first_in_first_out (p : EmulatedProcess) (q ts : list Task) :
  is_active p = true -> tasks p = Some q ->
  fst (dequeue_n (length q + length ts) (enqueue_all ts p)) = map Some (q ++ ts) /\
  tasks (snd (dequeue_n (length q + length ts) (enqueue_all ts p))) = Some [] /\
  work (snd (dequeue_n (length q + length ts) (enqueue_all ts p))) =
    work p - Z.of_nat (length q).
Proof.
  intros Ha Hq.
  destruct (enqueue_all_spec ts p q Ha Hq) as [_ [Ht Hw]].
  assert (L : (length q + length ts <= length (q ++ ts))%nat) by (rewrite length_app; lia).
  destruct (dequeue_n_spec (length q + length ts) (enqueue_all ts p) (q ++ ts) Ht L)
    as [F1 [T1 W1]].
  rewrite F1, T1, W1, Hw.
  rewrite firstn_all2, skipn_all2 by (rewrite length_app; lia).
  repeat split. rewrite Nat2Z.inj_add. lia.
Qed.

Lemma tasks_first_in_first_out_witness :
  is_active (create 0) = true /\
  tasks (create 0) = Some [TaskFunctionCall (mkFunctionCall Kernel 0 0 0 0 0)] /\
  fst (dequeue_n 3 (enqueue_all [TaskIPC 1; TaskIPC 2] (create 0))) =
    [Some (TaskFunctionCall (mkFunctionCall Kernel 0 0 0 0 0)); Some (TaskIPC 1); Some (TaskIPC 2)].
Proof.
  split; [reflexivity | split; [reflexivity |]].
  exact (proj1 (tasks_first_in_first_out (create 0)
    [TaskFunctionCall (mkFunctionCall Kernel 0 0 0 0 0)] [TaskIPC 1; TaskIPC 2] eq_refl eq_refl)).
Defined.

Definition FunctionCallSource_eq_dec (a b : FunctionCallSource) : {a = b} + {a <> b}.
Proof. decide equality. apply Nat.eq_dec. Defined.

Definition FunctionCall_eq_dec (a b : FunctionCall) : {a = b} + {a <> b}.
Proof. decide equality; first [apply Z.eq_dec | apply FunctionCallSource_eq_dec]. Defined.

Definition Task_eq_dec (a b : Task) : {a = b} + {a <> b}.
Proof. decide equality; first [apply FunctionCall_eq_dec | apply Nat.eq_dec]. Defined.

Lemma count_occ_filter_keep (callback_id : nat) (q : list Task) (t : Task) :
  count_occ Task_eq_dec (filter (keep_task callback_id) q) t =
  if keep_task callback_id t then count_occ Task_eq_dec q t else 0%nat.
Proof.
  induction q as [| x rest IH]; cbn [filter count_occ]; [destruct (keep_task callback_id t); reflexivity |].
  destruct (keep_task callback_id x) eqn:Kx; cbn [count_occ];
    destruct (Task_eq_dec x t) as [-> | Ne]; rewrite ?Kx in *; rewrite ?IH; try reflexivity;
    destruct (keep_task callback_id t); reflexivity.
Qed.

(** [remove_pending_callbacks] keeps each queued task as many times as it
    was queued unless it is a driver call for the given callback, which
    disappears altogether; the state and the kernel's work counter are left
    unchanged (the removed tasks are not taken off the counter). *)
Theorem remove_pending_callbacks_keeps_work (callback_id : nat) (p : EmulatedProcess) :
  work (remove_pending_callbacks callback_id p) = work p /\
  state (remove_pending_callbacks callback_id p) = state p /\
  match tasks p, tasks (remove_pending_callbacks callback_id p) with
  | Some q, Some q' =>
      forall t, count_occ Task_eq_dec q' t =
                if keep_task callback_id t then count_occ Task_eq_dec q t else 0%nat
  | None, None => True
  | _, _ => False
  end.
Proof.
  unfold remove_pending_callbacks.
  destruct (tasks p) as [q |] eqn:Hq; rewrite ?Hq; [| repeat split].
  cbn [work state tasks set_tasks]. split; [reflexivity | split; [reflexivity |]].
  intros t. apply count_occ_filter_keep.
Qed.

(** On any process obtained from [create] by the calls [enqueue_task],
    [dequeue_task], [remove_pending_callbacks], [set_yielded_state], [stop],
    [resume] and [set_process_function] (no [set_fault_state]),
    [enqueue_task] succeeds and no callback has ever been dropped. *)
Theorem reachable_enqueue_never_drops (p : EmulatedProcess) (t : Task) :
  reachable p ->
  fst (enqueue_task t p) = true /\ dropped_callback_count (snd (enqueue_task t p)) = 0%nat.
Proof.
  intros Hr. destruct (reachable_active p Hr) as [Ha [[q Hq] Hd]].
  unfold enqueue_task. rewrite Ha. cbn [negb tasks increment_work_external]. rewrite Hq.
  split; [reflexivity | exact Hd].
Qed.

Lemma reachable_enqueue_never_drops_witness :
  reachable (create 0) /\ fst (enqueue_task (TaskIPC 1) (create 0)) = true.
Proof.
  assert (H : reachable (create 0)) by (apply reach_create; lia).
  split; [exact H |].
  exact (proj1 (reachable_enqueue_never_drops (create 0) (TaskIPC 1) H)).
Defined.

End AdapterQueue.

Module LoopProps.
Import Interrupts InterruptLoop.

Lemma pop_nonempty (x : Interrupt) (h0 : list Interrupt) (ch : list (Z * Interrupt)) (nw : Z) :
  exists m h, pop_pending (mkLowerHalf ch nw (x :: h0)) = (Some m, mkLowerHalf ch nw h) /\
              Permutation (m :: h) (x :: h0).
Proof.
  pose proof (InterruptProps.heap_pop_max (x :: h0)) as HM.
  unfold pop_pending. cbn [pending channel now].
  destruct (heap_pop (x :: h0)) as [[m h] |]; [| discriminate].
  exists m, h. split; [reflexivity | tauto].
Qed.

(** One step of [next]: either an interrupt is taken out (and the arrived
    plus pending interrupts lose exactly it), or nothing has arrived and
    nothing is pending. *)
Definition next_case (l : LowerHalf) : Prop :=
  (exists m l', next l = (Some m, l') /\ now l' = now l /\
     (length (channel l') + length (pending l') + 1 = length (channel l) + length (pending l))%nat /\
     Permutation (m :: arrived (now l') (channel l') ++ pending l')
                 (arrived (now l) (channel l) ++ pending l)) \/
  (next l = (None, l) /\ pending l = [] /\ arrived (now l) (channel l) = []).

Lemma next_case_stay (ch : list (Z * Interrupt)) (nw : Z) (pd : list Interrupt) :
  receive_interrupts None (mkLowerHalf ch nw pd) = mkLowerHalf ch nw pd ->
  arrived nw ch = [] -> next_case (mkLowerHalf ch nw pd).
Proof.
  intros E A. unfold next_case, next. cbn [channel now pending]. rewrite E, A.
  destruct pd as [| x h0].
  - right. split; [reflexivity | split; reflexivity].
  - left. destruct (pop_nonempty x h0 ch nw) as [m [h [P Hp]]].
    exists m, (mkLowerHalf ch nw h). rewrite P. cbn [channel now pending].
    split; [reflexivity | split; [reflexivity | split]].
    + apply Permutation_length in Hp. cbn [length] in *. lia.
    + rewrite A. exact Hp.
Qed.

Lemma next_cases (l : LowerHalf) : next_case l.
Proof.
  destruct l as [ch nw pd].
  destruct ch as [| [t i] rest].
  - apply next_case_stay; reflexivity.
  - destruct (Z.leb t nw) eqn:Ht.
    + left. unfold next, receive_interrupts, try_recv, push_pending, heap_push.
      cbn [channel now pending]. rewrite Ht. cbv beta iota. cbn [channel now pending].
      destruct (pop_nonempty i pd rest nw) as [m [h [P Hp]]].
      exists m, (mkLowerHalf rest nw h). rewrite P. cbn [channel now pending arrived].
      rewrite Ht. split; [reflexivity | split; [reflexivity | split]].
      * apply Permutation_length in Hp. cbn [length] in *. lia.
      * cbn [app].
        apply Permutation_trans with (arrived nw rest ++ m :: h); [apply Permutation_middle |].
        apply Permutation_trans with (arrived nw rest ++ i :: pd);
          [apply Permutation_app_head; exact Hp |].
        apply Permutation_sym, Permutation_middle.
    + apply next_case_stay.
      * unfold receive_interrupts, try_recv. cbn [channel now pending]. rewrite Ht. reflexivity.
      * cbn [arrived]. rewrite Ht. reflexivity.
Qed.

Lemma service_loop_spec (fuel : nat) (l : LowerHalf) :
  (length (channel l) + length (pending l) < fuel)%nat ->
  pending (snd (service_loop fuel l)) = [] /\
  next (snd (service_loop fuel l)) = (None, snd (service_loop fuel l)) /\
  now (snd (service_loop fuel l)) = now l /\
  Permutation (fst (service_loop fuel l)) (arrived (now l) (channel l) ++ pending l).
Proof.
  revert l. induction fuel as [| f IH]; intros l Hf; [lia |].
  destruct (next_cases l) as [[m [l' [E [N [L P]]]]] | [E [Pd A]]]; cbn [service_loop]; rewrite E.
  - destruct (IH l' ltac:(lia)) as [P1 [N1 [T1 Q1]]].
    destruct (service_loop f l') as [is l''] eqn:R. cbn [fst snd] in *.
    split; [exact P1 | split; [exact N1 | split; [congruence |]]].
    rewrite <- N. rewrite <- N in P.
    apply Permutation_trans with (m :: arrived (now l') (channel l') ++ pending l');
      [apply perm_skip; exact Q1 | exact P].
  - cbn [fst snd]. split; [exact Pd | split; [exact E | split; [reflexivity |]]].
    rewrite A, Pd. apply perm_nil.
Qed.

(** With nothing pending and every sent interrupt already due, [next]
    returns the interrupts in the order they were sent. *)
Theorem next_n_arrival_order (l : LowerHalf) :
  pending l = [] -> Forall (fun e => fst e <= now l) (channel l) ->
  next_n (length (channel l)) l = map (fun e => Some (snd e)) (channel l).
Proof.
  destruct l as [ch nw pd]; cbn [pending channel now]. intros Hp Hf. subst pd.
  induction ch as [| [t i] rest IH]; [reflexivity |].
  inversion Hf as [| ? ? Ht Hr]; subst. cbn [fst] in Ht.
  cbn [length next_n].
  assert (E : next (mkLowerHalf ((t, i) :: rest) nw []) = (Some i, mkLowerHalf rest nw [])).
  { unfold next, receive_interrupts, try_recv, push_pending, pop_pending, heap_push.
    cbn [channel now pending]. apply Z.leb_le in Ht. rewrite Ht. cbn.
    rewrite Z.eqb_refl. reflexivity. }
  rewrite E. cbn [map snd]. f_equal. exact (IH Hr).
Qed.

Lemma next_n_arrival_order_witness :
  pending (mkLowerHalf [(0, 3); (1, 9); (2, 1)] 5 []) = [] /\
  Forall (fun e => fst e <= now (mkLowerHalf [(0, 3); (1, 9); (2, 1)] 5 []))
    (channel (mkLowerHalf [(0, 3); (1, 9); (2, 1)] 5 [])) /\
  next_n 3 (mkLowerHalf [(0, 3); (1, 9); (2, 1)] 5 []) = [Some 3; Some 9; Some 1].
Proof.
  assert (H : Forall (fun e => fst e <= now (mkLowerHalf [(0, 3); (1, 9); (2, 1)] 5 []))
                (channel (mkLowerHalf [(0, 3); (1, 9); (2, 1)] 5 [])))
    by (cbn; repeat constructor; cbn; lia).
  split; [reflexivity | split; [exact H |]].
  exact (next_n_arrival_order (mkLowerHalf [(0, 3); (1, 9); (2, 1)] 5 []) eq_refl H).
Defined.

(** [service_pending_interrupts] dispatches every interrupt that has
    arrived or was pending, each once, and leaves nothing for [next]. *)
Theorem service_pending_interrupts_drains (l : LowerHalf) :
  pending (snd (service_pending_interrupts l)) = [] /\
  next (snd (service_pending_interrupts l)) = (None, snd (service_pending_interrupts l)) /\
  Permutation (fst (service_pending_interrupts l)) (arrived (now l) (channel l) ++ pending l).
Proof.
  unfold service_pending_interrupts.
  destruct (service_loop_spec (S (length (channel l) + length (pending l))) l ltac:(lia))
    as [P [N [_ Q]]].
  split; [exact P | split; [exact N | exact Q]].
Qed.

End LoopProps.

Module SpinProps.
Import InterruptLoop.

Lemma spin_recv_length (buf d : list Z) : length (spin_recv buf d) = length buf.
Proof.
  unfold spin_recv. rewrite length_app, length_firstn, length_skipn. lia.
Qed.

Lemma spin_loop_app (ds1 ds2 : list (list Z)) (buf : list Z) :
  fst (spin_loop true buf (ds1 ++ ds2)) =
    fst (spin_loop true buf ds1) ++ fst (spin_loop true (fold_left spin_recv ds1 buf) ds2) /\
  length (fst (spin_loop true buf ds1)) = length ds1.
Proof.
  revert buf. induction ds1 as [| d rest IH]; intros buf; [split; reflexivity |].
  cbn [app spin_loop fold_left].
  destruct (IH (spin_recv buf d)) as [A L].
  destruct (spin_loop true (spin_recv buf d) (rest ++ ds2)) as [s1 e1] eqn:E1.
  destruct (spin_loop true (spin_recv buf d) rest) as [s2 e2] eqn:E2.
  cbn [fst] in *. split; [rewrite A; reflexivity | cbn [length]; rewrite L; reflexivity].
Qed.

Lemma fold_spin_recv_length (ds : list (list Z)) (buf : list Z) :
  length (fold_left spin_recv ds buf) = length buf.
Proof.
  revert buf. induction ds as [| d rest IH]; intros buf; [reflexivity |].
  cbn [fold_left]. rewrite IH. apply spin_recv_length.
Qed.

Lemma spin_loop_head (buf d : list Z) (ds : list (list Z)) :
  exists rest, fst (spin_loop true buf (d :: ds)) = le_word (spin_recv buf d) :: rest.
Proof.
  cbn [spin_loop]. destruct (spin_loop true (spin_recv buf d) ds) as [s e].
  exists s. reflexivity.
Qed.

(** [spin] forwards the whole reused 4-byte buffer after each datagram: an
    empty datagram repeats the previous interrupt, and a datagram of at
    least four bytes is forwarded as its first four. *)
Theorem spin_reuses_buffer (ds1 : list (list Z)) (d : list Z) (ds2 : list (list Z)) :
  (exists sent1 i rest,
     fst (spin true (ds1 ++ d :: [] :: ds2)) = sent1 ++ i :: i :: rest /\
     length sent1 = length ds1) /\
  ((size_of_Interrupt <= length d)%nat ->
   exists sent1 rest,
     fst (spin true (ds1 ++ d :: ds2)) = sent1 ++ le_word (firstn size_of_Interrupt d) :: rest /\
     length sent1 = length ds1).
Proof.
  unfold spin.
  set (buf0 := repeat 0 size_of_Interrupt).
  set (buf1 := fold_left spin_recv ds1 buf0).
  assert (L1 : length buf1 = size_of_Interrupt).
  { unfold buf1. rewrite fold_spin_recv_length. apply repeat_length. }
  split.
  - destruct (spin_loop_app ds1 (d :: [] :: ds2) buf0) as [A L].
    rewrite A. fold buf1.
    cbn [spin_loop]. destruct (spin_loop true (spin_recv (spin_recv buf1 d) []) ds2) as [s e].
    exists (fst (spin_loop true buf0 ds1)), (le_word (spin_recv buf1 d)), s.
    split; [| exact L].
    assert (E : spin_recv (spin_recv buf1 d) [] = spin_recv buf1 d) by reflexivity.
    rewrite E. reflexivity.
  - intros Hd.
    destruct (spin_loop_app ds1 (d :: ds2) buf0) as [A L].
    destruct (spin_loop_head buf1 d ds2) as [rest R].
    exists (fst (spin_loop true buf0 ds1)), rest.
    rewrite A. fold buf1. rewrite R. split; [| exact L].
    unfold spin_recv. rewrite L1, Nat.min_r by exact Hd.
    rewrite (skipn_all2 buf1) by lia. rewrite app_nil_r. reflexivity.
Qed.

End SpinProps.

Module SysTickProps.
Import SysTick.

(** As the clock advances past the start, an overflowed timer stays
    overflowed and the remaining time only shrinks. *)
Theorem systick_clock_monotone (c1 c2 us : Z) (s : SysTick) :
  start_time s <= c1 <= c2 ->
  (overflowed c1 s = true -> overflowed c2 s = true) /\
  (greater_than c2 us s = true -> greater_than c1 us s = true).
Proof.
  intros H. unfold greater_than, overflowed, elapsed_us.
  destruct (enabled s); cbn [negb]; [| split; [auto | discriminate]].
  assert (E1 : Z.leb (start_time s) c1 = true) by (apply Z.leb_le; lia).
  assert (E2 : Z.leb (start_time s) c2 = true) by (apply Z.leb_le; lia).
  rewrite E1, E2.
  assert (M : (c1 - start_time s) / 1000 <= (c2 - start_time s) / 1000)
    by (apply Z.div_le_mono; lia).
  split.
  - rewrite !Z.ltb_lt. lia.
  - destruct (Z.ltb_spec ((c2 - start_time s) / 1000) (set_duration_us s));
      destruct (Z.ltb_spec ((c1 - start_time s) / 1000) (set_duration_us s));
      rewrite !Z.leb_le; lia.
Qed.

Lemma systick_clock_monotone_witness :
  start_time (mkSysTick 1000 500 true) <= 2000 <= 900000 /\
  (overflowed 2000 (mkSysTick 1000 500 true) = true ->
   overflowed 900000 (mkSysTick 1000 500 true) = true).
Proof.
  assert (H : start_time (mkSysTick 1000 500 true) <= 2000 <= 900000) by (cbn; lia).
  split; [exact H |].
  exact (proj1 (systick_clock_monotone 2000 900000 1 (mkSysTick 1000 500 true) H)).
Defined.

(** An overflowed timer never reports a positive amount of time remaining. *)
Theorem systick_overflowed_excludes_remaining (clock us : Z) (s : SysTick) :
  0 < us -> overflowed clock s = true -> greater_than clock us s = false.
Proof.
  intros Hu. unfold greater_than, overflowed.
  destruct (enabled s); cbn [negb]; [| reflexivity].
  destruct (elapsed_us clock s) as [e |]; [| reflexivity].
  intros Ho. apply Z.ltb_lt in Ho.
  destruct (Z.ltb_spec e (set_duration_us s)); [lia |].
  apply Z.leb_gt. lia.
Qed.

Lemma systick_overflowed_excludes_remaining_witness :
  0 < 1 /\ overflowed 900000 (mkSysTick 1000 500 true) = true /\
  greater_than 900000 1 (mkSysTick 1000 500 true) = false.
Proof.
  assert (H : overflowed 900000 (mkSysTick 1000 500 true) = true) by reflexivity.
  split; [lia | split; [exact H |]].
  apply systick_overflowed_excludes_remaining; [lia | exact H].
Defined.

(** [enable] with interrupts panics; the kernel's sequence [reset],
    [set_timer(d)], [enable(false)] gives a timer, set at clock [c1], for
    which, at any later clock [c] and any [us : u32], [greater_than(us)]
    holds exactly when [us] is 0 or [us] plus the elapsed microseconds is
    at most [d], and [overflowed] holds exactly when the elapsed
    microseconds exceed [d]. *)
Theorem systick_kernel_arming (c0 c1 d : Z) (s : SysTick) :
  enable true s = Interrupts.Panics "Timer interrupts not implemented"%string /\
  exists s', enable false (set_timer c1 d (reset c0 s)) = Interrupts.Returns s' /\
    forall c us, c1 <= c -> 0 <= us ->
      (greater_than c us s' = true <-> us = 0 \/ us + (c - c1) / 1000 <= d) /\
      (overflowed c s' = true <-> d < (c - c1) / 1000).
Proof.
  split; [reflexivity |].
  eexists; split; [reflexivity |].
  intros c us Hc Hu. unfold greater_than, overflowed, elapsed_us. cbn.
  assert (E : Z.leb c1 c = true) by (apply Z.leb_le; lia). rewrite E.
  assert (P : 0 <= (c - c1) / 1000) by (apply Z.div_pos; lia).
  split.
  - destruct (Z.ltb_spec ((c - c1) / 1000) d); rewrite Z.leb_le; lia.
  - rewrite Z.ltb_lt. reflexivity.
Qed.

End SysTickProps.
